(** * socketmap.py: the netstring codec, the request handler and the table
    registry of the SQLite socketmap daemon, embedded in Rocq.

    The daemon is Python 2/3 source whose protocol code compares what it
    reads from the socket with [str] literals ([''], [':'], ['0'], [','])
    and concatenates it with [str]; the embedding therefore follows the
    byte-string reading of [str]: a string is a list of 8-bit characters and
    a stream is the list of characters that remain to be read from it.

    Python exceptions are values of [exn]; a computation that may raise
    returns a [result].  The two generators/loops that are not structurally
    recursive ([netstring_reader], [Handler.handle]) take fuel; their
    totality for the fuel they are run with is proved below. *)

From Stdlib Require Import ZArith NArith List Ascii String Lia Bool.
From Stdlib Require Import Decimal DecimalFacts DecimalPos DecimalN.
From stdpp Require Import base option list gmap strings.

Local Open Scope Z_scope.
Local Open Scope list_scope.

(** ** Python values *)

(** A [str] of the protocol: a sequence of 8-bit characters. *)
Abbreviation str := (list ascii) (only parsing).

(** String literals of the source, as [str]. *)
Definition lit (s : string) : str := list_ascii_of_string s.

Inductive exn : Type :=
| MalformedNetstringError
| NoSuchTable (table_name : str)
| ValueError (msg : str)
| IndexError (msg : str)
| TypeError (msg : str)
| NoSectionError (section : str)
| NoOptionError (option section : str)
| CollaboratorError (msg : str).
  (* raised by the collaborators: sqlite3.Error, ImportError,
     AttributeError, an exception of a user-supplied transform *)

Inductive result (A : Type) : Type :=
| Ok (a : A)
| Raise (e : exn).
Arguments Ok {A} a.
Arguments Raise {A} e.

Definition bind {A B} (r : result A) (k : A -> result B) : result B :=
  match r with
  | Ok a => k a
  | Raise e => Raise e
  end.

Notation "x <-- r ; k" := (bind r (fun x => k))
  (at level 20, r at level 100, k at level 200, only parsing).
Notation "' p <-- r ; k" := (bind r (fun x => let 'p := x in k))
  (at level 20, p pattern, r at level 100, k at level 200, only parsing).

(** [str(exc)]: the text of an exception.  [NoSuchTable(table_name)] is an
    [Exception] with one argument, whose text is that argument. *)
Definition str_of_exn (e : exn) : str :=
  match e with
  | MalformedNetstringError => []
  | NoSuchTable table_name => table_name
  | ValueError msg => msg
  | IndexError msg => msg
  | TypeError msg => msg
  | NoSectionError section =>
      lit "No section: '" ++ section ++ lit "'"
  | NoOptionError option section =>
      lit "No option '" ++ option ++ lit "' in section: '" ++ section ++ lit "'"
  | CollaboratorError msg => msg
  end.

(** [s.split(sep, 1)] for a one-character separator: the text before the
    first [sep] and the text after it, or the whole text alone. *)
Fixpoint find_sep (sep : ascii) (s : str) : option (str * str) :=
  match s with
  | [] => None
  | c :: s' =>
      if Ascii.eqb c sep then Some ([], s')
      else match find_sep sep s' with
           | Some (before, after) => Some (c :: before, after)
           | None => None
           end
  end.

Definition split1 (sep : ascii) (s : str) : list str :=
  match find_sep sep s with
  | Some (before, after) => [before; after]
  | None => [s]
  end.

(** [a, b = l]: unpacking into two targets. *)
Definition unpack2 (l : list str) : result (str * str) :=
  match l with
  | [a; b] => Ok (a, b)
  | [] => Raise (ValueError (lit "need more than 0 values to unpack"))
  | [_] => Raise (ValueError (lit "need more than 1 value to unpack"))
  | _ => Raise (ValueError (lit "too many values to unpack"))
  end.

(** [l[i]] for a non-negative index. *)
Definition index {A} (l : list A) (i : nat) : result A :=
  match nth_error l i with
  | Some x => Ok x
  | None => Raise (IndexError (lit "list index out of range"))
  end.

(** [s.startswith(prefix)] *)
Fixpoint startswith (prefix s : str) : bool :=
  match prefix, s with
  | [], _ => true
  | p :: prefix', c :: s' => Ascii.eqb p c && startswith prefix' s'
  | _ :: _, [] => false
  end.

(** ** Decimal text of integers *)

Fixpoint chars_of_uint (d : Decimal.uint) : str :=
  match d with
  | Nil => []
  | D0 d => "0"%char :: chars_of_uint d
  | D1 d => "1"%char :: chars_of_uint d
  | D2 d => "2"%char :: chars_of_uint d
  | D3 d => "3"%char :: chars_of_uint d
  | D4 d => "4"%char :: chars_of_uint d
  | D5 d => "5"%char :: chars_of_uint d
  | D6 d => "6"%char :: chars_of_uint d
  | D7 d => "7"%char :: chars_of_uint d
  | D8 d => "8"%char :: chars_of_uint d
  | D9 d => "9"%char :: chars_of_uint d
  end.

Definition digit_of_char (c : ascii) : option (Decimal.uint -> Decimal.uint) :=
  if Ascii.eqb c "0" then Some D0
  else if Ascii.eqb c "1" then Some D1
  else if Ascii.eqb c "2" then Some D2
  else if Ascii.eqb c "3" then Some D3
  else if Ascii.eqb c "4" then Some D4
  else if Ascii.eqb c "5" then Some D5
  else if Ascii.eqb c "6" then Some D6
  else if Ascii.eqb c "7" then Some D7
  else if Ascii.eqb c "8" then Some D8
  else if Ascii.eqb c "9" then Some D9
  else None.

Definition is_digit (c : ascii) : bool :=
  match digit_of_char c with Some _ => true | None => false end.

Fixpoint uint_of_chars (s : str) : option Decimal.uint :=
  match s with
  | [] => Some Nil
  | c :: s' =>
      match digit_of_char c, uint_of_chars s' with
      | Some d, Some u => Some (d u)
      | _, _ => None
      end
  end.

(** ['{}'.format(z)] / [str(z)] for an [int]. *)
Definition str_of_int (z : Z) : str :=
  match z with
  | Z0 => [ "0"%char ]
  | Zpos p => chars_of_uint (Pos.to_uint p)
  | Zneg p => "-"%char :: chars_of_uint (Pos.to_uint p)
  end.

(** The white space [int()] strips from its argument: the characters of
    C's [isspace] (tab to carriage return, and the space) and, of the
    characters above 127, the two that are Unicode white space, [\x85] and
    [\xa0]. *)
Definition isspace (c : ascii) : bool :=
  let n := N_of_ascii c in
  ((9 <=? n) && (n <=? 13) || (n =? 32) || (n =? 133) || (n =? 160))%N.

Fixpoint lstrip (s : str) : str :=
  match s with
  | c :: s' => if isspace c then lstrip s' else s
  | [] => []
  end.

Definition strip (s : str) : str := rev (lstrip (rev (lstrip s))).

(** The digits of an integer literal, without its underscores: one or more
    decimal digits, where a single underscore may stand between two digits.
    [after_digit] says that the character before [s] was a digit. *)
Fixpoint literal_digits (after_digit : bool) (s : str) : option str :=
  match s with
  | [] => if after_digit then Some [] else None
  | c :: s' =>
      if is_digit c then
        match literal_digits true s' with
        | Some ds => Some (c :: ds)
        | None => None
        end
      else if Ascii.eqb c "_" && after_digit then literal_digits false s'
      else None
  end.

(** [int(s, 10)] on a [str], as the interpreter of the first line of the
    source ([python3]) reads it: optional surrounding white space, an
    optional sign, then the digits of an integer literal; anything else is a
    [ValueError].  (Python 2 refuses the underscores and the two white-space
    characters above 127, and agrees on every other text.  The text of the
    error quotes [repr(s)]; the embedding quotes [s] itself.  No part of the
    program reads it.) *)
Definition int10 (s : str) : result Z :=
  let bad :=
    Raise (ValueError (lit "invalid literal for int() with base 10: '" ++ s ++ lit "'")) in
  let digits (neg : bool) (ds : str) : result Z :=
    match literal_digits false ds with
    | Some ds' =>
        match uint_of_chars ds' with
        | Some u =>
            let n := Z.of_N (N.of_uint u) in
            Ok (if neg then - n else n)
        | None => bad
        end
    | None => bad
    end in
  match strip s with
  | c :: ds =>
      if Ascii.eqb c "-" then digits true ds
      else if Ascii.eqb c "+" then digits false ds
      else digits false (c :: ds)
  | [] => bad
  end.

(** [fp.read(n)] on a blocking stream: the bytes read and the stream that
    remains.  A negative [n] reads to the end of the stream; otherwise up to
    [n] bytes are read, fewer only when the stream ends first. *)
Fixpoint read_upto (n : Z) (fp : str) : str * str :=
  match fp with
  | [] => ([], [])
  | c :: fp' =>
      if n <=? 0 then ([], fp)
      else let '(data, rest) := read_upto (n - 1) fp' in (c :: data, rest)
  end.

Definition read (n : Z) (fp : str) : str * str :=
  if n <? 0 then (fp, []) else read_upto n fp.

(** ** netstring_reader *)

(** A character that does not end the length prefix. *)
Definition not_colon (c : ascii) : Prop := Ascii.eqb c ":" = false.

(** How the inner [while True] loop of [netstring_reader] is left. *)
Inductive length_result : Type :=
| LenReturn                      (* [return]: the stream ended *)
| LenRaise (e : exn)             (* [raise] *)
| LenBreak (n : str) (fp : str). (* [break], with the prefix read so far *)

(** The inner loop: [n] is the prefix accumulated so far, [fp] the stream. *)
Fixpoint read_length (n : str) (fp : str) : length_result :=
  match fp with
  | [] => LenReturn                                  (* c == '' *)
  | c :: fp' =>
      if Ascii.eqb c ":" then LenBreak n fp'
      else if (10 <? length n)%nat then LenRaise MalformedNetstringError
      else if Ascii.eqb c "0" && bool_decide (n = []) then
        (* We can't allow leading zeros. *)
        match fp' with
        | c' :: fp'' =>
            if Ascii.eqb c' ":" then LenBreak [c] fp''
            else LenRaise MalformedNetstringError
        | [] => LenRaise MalformedNetstringError     (* '' != ':' *)
        end
      else read_length (n ++ [c]) fp'
  end.

(** One turn of the outer [while True] loop: the generator returns, raises,
    or yields a payload and is suspended on the rest of the stream. *)
Inductive frame_result : Type :=
| FrameReturn
| FrameRaise (e : exn)
| FrameYield (payload : str) (fp : str).

Definition next_frame (fp : str) : frame_result :=
  match read_length [] fp with
  | LenReturn => FrameReturn
  | LenRaise e => FrameRaise e
  | LenBreak n fp1 =>
      match int10 n with
      | Raise e => FrameRaise e
      | Ok n =>
          let '(payload, fp2) := read n fp1 in
          if Z.of_nat (length payload) <? n then FrameReturn
          else match fp2 with
               | c :: fp3 =>
                   if Ascii.eqb c "," then FrameYield payload fp3
                   else FrameRaise MalformedNetstringError
               | [] => FrameRaise MalformedNetstringError   (* '' != ',' *)
               end
      end
  end.

(** How an iteration over a generator, or a call, ends. *)
Inductive ending : Type :=
| Returned
| Raised (e : exn).

(** The payloads the generator yields, in order, and how it ends. *)
Fixpoint reader_loop (fuel : nat) (fp : str) : option (list str * ending) :=
  match fuel with
  | O => None
  | S fuel' =>
      match next_frame fp with
      | FrameReturn => Some ([], Returned)
      | FrameRaise e => Some ([], Raised e)
      | FrameYield payload fp' =>
          match reader_loop fuel' fp' with
          | Some (payloads, e) => Some (payload :: payloads, e)
          | None => None
          end
      end
  end.

Definition netstring_reader (fp : str) : option (list str * ending) :=
  reader_loop (S (length fp)) fp.

(** ** The datastore, the table registry and the handler *)

(** A column of a fetched row, as far as the handler looks at it: it only
    evaluates ['OK ' + result[0]], which concatenates a text and raises
    [TypeError] for an object of any other type ([int], [NoneType],
    [float], [buffer]), named here by its type. *)
Inductive column : Type :=
| Text (s : str)
| NonText (type_name : str).

(** ['...' + x] *)
Definition str_add (a : str) (x : column) : result str :=
  match x with
  | Text s => Ok (a ++ s)
  | NonText type_name =>
      Raise (TypeError (lit "cannot concatenate 'str' and '" ++ type_name
                          ++ lit "' objects"))
  end.

(** An entry of [server.tables]. *)
Record table : Type := {
  transform : str -> result str;
  query : str
}.

(** What the handler uses of [self.server].  [db_conn q param] stands for
    [cur.execute(q, [param])] followed by [cur.fetchone()] on a cursor of
    the connection: an exception, no row, or a row. *)
Record server : Type := {
  tables : gmap str table;
  db_conn : str -> str -> result (option (list column))
}.

Module Handler.

Definition _query_db (self : server) (table : table) (arg : str)
  : result (option (list column)) :=
  param <-- transform table arg;
  db_conn self (query table) param.

Definition run_query (self : server) (table_name arg : str)
  : result (option (list column)) :=
  match tables self !! table_name with
  | None => Raise (NoSuchTable table_name)
  | Some table => _query_db self table arg
  end.

(** ['{}:{},'.format(len(response), response)] *)
Definition netstring (response : str) : str :=
  str_of_int (Z.of_nat (length response)) ++ lit ":" ++ response ++ lit ",".

(** [wfile] is what has been written to the connection so far. *)
Definition write_netstring (wfile response : str) : str :=
  wfile ++ netstring response.

(** The body of the [for] loop of [handle] for one request: the new
    [wfile], or the exception that leaves the loop. *)
Definition handle_request (self : server) (wfile request : str)
  : result str :=
  '(table_name, arg) <-- unpack2 (split1 " " request);
  match run_query self table_name arg with
  | Raise exc =>
      Ok (write_netstring wfile (lit "PERM " ++ str_of_exn exc))
  | Ok None =>
      Ok (write_netstring wfile (lit "NOTFOUND "))
  | Ok (Some result) =>
      first <-- index result 0;
      response <-- str_add (lit "OK ") first;
      Ok (write_netstring wfile response)
  end.

(** [handle]: the requests are taken from the generator one at a time;
    an exception of the generator or of the loop body leaves [handle].
    The result is what was written and how [handle] ended. *)
Fixpoint handle_loop (fuel : nat) (self : server) (rfile wfile : str)
  : option (str * ending) :=
  match fuel with
  | O => None
  | S fuel' =>
      match next_frame rfile with
      | FrameReturn => Some (wfile, Returned)
      | FrameRaise e => Some (wfile, Raised e)
      | FrameYield request rfile' =>
          match handle_request self wfile request with
          | Raise e => Some (wfile, Raised e)
          | Ok wfile' => handle_loop fuel' self rfile' wfile'
          end
      end
  end.

Definition handle (self : server) (rfile : str) : option (str * ending) :=
  handle_loop (S (length rfile)) self rfile [].

End Handler.

(** ** FUNC_REF_PATTERN and match *)

(** Regular expressions over character classes, matched by derivatives. *)
Inductive regex : Type :=
| Void
| Eps
| Class (p : ascii -> bool)
| Seq (r1 r2 : regex)
| Alt (r1 r2 : regex)
| Star (r : regex).

Fixpoint nullable (r : regex) : bool :=
  match r with
  | Void => false
  | Eps => true
  | Class _ => false
  | Seq r1 r2 => nullable r1 && nullable r2
  | Alt r1 r2 => nullable r1 || nullable r2
  | Star _ => true
  end.

Fixpoint deriv (c : ascii) (r : regex) : regex :=
  match r with
  | Void => Void
  | Eps => Void
  | Class p => if p c then Eps else Void
  | Seq r1 r2 =>
      if nullable r1 then Alt (Seq (deriv c r1) r2) (deriv c r2)
      else Seq (deriv c r1) r2
  | Alt r1 r2 => Alt (deriv c r1) (deriv c r2)
  | Star r1 => Seq (deriv c r1) (Star r1)
  end.

Definition fullmatch (r : regex) (s : str) : bool :=
  nullable (fold_left (fun r c => deriv c r) s r).

Definition in_range (lo hi : ascii) (c : ascii) : bool :=
  ((N_of_ascii lo <=? N_of_ascii c) && (N_of_ascii c <=? N_of_ascii hi))%N.

Definition chr (a : ascii) : regex := Class (Ascii.eqb a).

(** [[a-z_]] and [[a-z0-9_]] under [re.I]. *)
Definition ident_start (c : ascii) : bool :=
  in_range "a" "z" c || in_range "A" "Z" c || Ascii.eqb c "_".
Definition ident_char (c : ascii) : bool :=
  ident_start c || in_range "0" "9" c.

(** The sub-pattern of both groups: a segment, [[a-z_]] then any number of
    [[a-z0-9_]], followed by any number of segments each after a dot. *)
Definition dotted_name : regex :=
  let segment := Seq (Class ident_start) (Star (Class ident_char)) in
  Seq segment (Star (Seq (chr ".") segment)).

(** [^ module : object $]; without [re.M], [$] matches at the end of the
    text and also before a newline that ends it. *)
Definition FUNC_REF_PATTERN : regex :=
  Seq dotted_name
    (Seq (chr ":")
       (Seq dotted_name (Alt Eps (chr "010")))).

(** The two groups of a match.  Neither group can hold a [':'] or a
    newline, so [module] is the text before the first [':'] and [object]
    the text after it, less a final newline. *)
Definition groups (name : str) : str * str :=
  match find_sep ":" name with
  | Some (module, rest) =>
      match rev rest with
      | c :: tser => if Ascii.eqb c "010" then (module, rev tser) else (module, rest)
      | [] => (module, rest)
      end
  | None => (name, [])
  end.

Definition match_ (name : str) : result (str * str) :=
  if fullmatch FUNC_REF_PATTERN name then Ok (groups name)
  else Raise (ValueError (lit "Malformed callable '" ++ name ++ lit "'")).

(** ** parse_config *)

(** The parsed configuration file, as [parse_config] reads it through
    [RawConfigParser]: the section names in file order and the value of
    each option of each section. *)
Record RawConfigParser : Type := {
  sections : list str;
  option_value : str -> str -> option str
}.

Definition has_section (cp : RawConfigParser) (section : str) : bool :=
  bool_decide (section ∈ sections cp).

Definition has_option (cp : RawConfigParser) (section option : str) : bool :=
  has_section cp section &&
  match option_value cp section option with Some _ => true | None => false end.

Definition get (cp : RawConfigParser) (section option : str) : result str :=
  if has_section cp section then
    match option_value cp section option with
    | Some v => Ok v
    | None => Raise (NoOptionError option section)
    end
  else Raise (NoSectionError section).

Definition passthrough (arg : str) : result str := Ok arg.
Definition local_part (arg : str) : result str := index (split1 "@" arg) 0.
Definition domain_part (arg : str) : result str := index (split1 "@" arg) 1.

Module Config.
(** The dictionary [parse_config] returns. *)
Record t : Type := {
  db_path : str;
  tables : gmap str table
}.
End Config.

Section parse_config.

(** [resolve(module_name, obj_name)] imports a module of the running
    interpreter and walks its attributes: it is taken as given. *)
Variable resolve : str -> str -> result (str -> result str).

Variable cp : RawConfigParser.

(** [transform_name] of a section: its [transform] option, ['all'] when
    the section has none. *)
Definition transform_name_of (section : str) : result str :=
  match get cp section (lit "transform") with
  | Raise (NoOptionError _ _) => Ok (lit "all")
  | r => r
  end.

Definition transform_of (transform_name : str)
  : result (str -> result str) :=
  if bool_decide (transform_name = lit "all") then Ok passthrough
  else if bool_decide (transform_name = lit "local") then Ok local_part
  else if bool_decide (transform_name = lit "domain") then Ok domain_part
  else '(module, object) <-- match_ transform_name; resolve module object.

(** The [for section in cp.sections()] loop, over the sections that
    remain, with [result['tables']] as built so far. *)
Fixpoint parse_sections (todo : list str) (tables : gmap str table)
  : result (gmap str table) :=
  match todo with
  | [] => Ok tables
  | section :: todo' =>
      if startswith (lit "table:") section then
        '(_, table_name) <-- unpack2 (split1 ":" section);
        if negb (has_option cp section (lit "query")) then
          (* logging.warning("No query in '%s': skipping"); continue *)
          parse_sections todo' tables
        else
          transform_name <-- transform_name_of section;
          transform <-- transform_of transform_name;
          query <-- get cp section (lit "query");
          parse_sections todo'
            (<[table_name := {| transform := transform; query := query |}]>
               tables)
      else parse_sections todo' tables
  end.

Definition parse_config : result Config.t :=
  db_path <-- get cp (lit "database") (lit "path");
  tables <-- parse_sections (sections cp) ∅;
  Ok {| Config.db_path := db_path; Config.tables := tables |}.

End parse_config.

(** The transform names [parse_config] knows by itself. *)
Definition builtin_names : list str := [lit "all"; lit "local"; lit "domain"].

(** The texts a regular expression matches. *)
Inductive Matches : regex -> str -> Prop :=
| MEps : Matches Eps []
| MClass (p : ascii -> bool) (c : ascii) :
    p c = true -> Matches (Class p) [c]
| MSeq (r1 r2 : regex) (s1 s2 : str) :
    Matches r1 s1 -> Matches r2 s2 -> Matches (Seq r1 r2) (s1 ++ s2)
| MAltL (r1 r2 : regex) (s : str) : Matches r1 s -> Matches (Alt r1 r2) s
| MAltR (r1 r2 : regex) (s : str) : Matches r2 s -> Matches (Alt r1 r2) s
| MStarNil (r : regex) : Matches (Star r) []
| MStarCons (r : regex) (s1 s2 : str) :
    Matches r s1 -> Matches (Star r) s2 -> Matches (Star r) (s1 ++ s2).

(** A segment of a dotted name: a letter or underscore, then letters,
    digits and underscores. *)
Definition segment (s : str) : Prop :=
  exists c cs, s = c :: cs /\ ident_start c = true /\
               Forall (fun c => ident_char c = true) cs.

(** A dotted name: one segment or more, joined by dots. *)
Definition dotted (s : str) : Prop :=
  exists seg segs, segment seg /\ Forall segment segs /\
                   s = seg ++ concat (map (cons "."%char) segs).

(** A character of a dotted name. *)
Definition name_char (c : ascii) : Prop := ident_char c = true \/ c = "."%char.

(** What the section [table:name] of a configuration asks for: an entry
    under [name] with its query and with the transform its [transform]
    option names, [all] when it has none. *)
Definition entry_of (resolve : str -> str -> result (str -> result str))
    (cp : RawConfigParser) (name : str) (t : table) : Prop :=
  lit "table:" ++ name ∈ sections cp /\
  option_value cp (lit "table:" ++ name) (lit "query") = Some (query t) /\
  transform_of resolve
    (default (lit "all")
       (option_value cp (lit "table:" ++ name) (lit "transform")))
  = Ok (transform t).

(** The three shapes of a response payload. *)
Definition is_response (r : str) : Prop :=
  r = lit "NOTFOUND " \/
  (exists v, r = lit "OK " ++ v) \/
  (exists msg, r = lit "PERM " ++ msg).

(** A datastore whose rows all start with a text column. *)
Definition text_rows (self : server) : Prop :=
  forall (q param : str) (row : list column),
    db_conn self q param = Ok (Some row) ->
    exists v columns, row = Text v :: columns.

(** ** Sample data *)

(** A registry with the table [aliases], served by a datastore in which the
    query of that table finds one row, [("value1",)], for the key [foo] and
    no row for any other key. *)
Definition sample_table : table :=
  {| transform := passthrough;
     query := lit "SELECT address FROM aliases WHERE name = ?" |}.

Definition sample_server : server :=
  {| tables := {[ lit "aliases" := sample_table ]};
     db_conn := fun q param =>
       if bool_decide (param = lit "foo")
       then Ok (Some [Text (lit "value1")])
       else Ok None |}.

(** A registry with the table [domains], looked up by the domain part of
    the argument, on a datastore that is locked. *)
Definition locked_server : server :=
  {| tables :=
       {[ lit "domains" :=
            {| transform := domain_part;
               query := lit "SELECT 1 FROM domains WHERE name = ?" |} ]};
     db_conn := fun q param =>
       Raise (CollaboratorError (lit "database is locked")) |}.

(** A configuration file with a [database] section and one table section,
    [table:aliases], whose transform is spelled [local-part]; the section
    has a [query] option or not. *)
Definition sample_config (with_query : bool) : RawConfigParser :=
  {| sections := [lit "database"; lit "table:aliases"];
     option_value := fun section option =>
       if bool_decide (section = lit "database") then
         if bool_decide (option = lit "path")
         then Some (lit "/var/db/mail.sqlite") else None
       else if bool_decide (section = lit "table:aliases") then
         if bool_decide (option = lit "transform") then Some (lit "local-part")
         else if bool_decide (option = lit "query") && with_query
         then Some (lit "SELECT address FROM aliases WHERE name = ?")
         else None
       else None |}.

(** A registry with the table [quota], whose query selects an integer
    column. *)
Definition quota_server : server :=
  {| tables :=
       {[ lit "quota" :=
            {| transform := local_part;
               query := lit "SELECT bytes FROM quota WHERE name = ?" |} ]};
     db_conn := fun q param => Ok (Some [NonText (lit "int")]) |}.

(** A configuration file with two tables that can be built, [aliases]
    (no [transform] option) and [domains] (transform [domain]), a table
    section without a query, and a section that is not a table. *)
Definition good_config : RawConfigParser :=
  {| sections := [lit "database"; lit "table:aliases"; lit "table:domains";
                  lit "table:skipped"; lit "logging"];
     option_value := fun section option =>
       if bool_decide (section = lit "database") then
         if bool_decide (option = lit "path")
         then Some (lit "/var/db/mail.sqlite") else None
       else if bool_decide (section = lit "table:aliases") then
         if bool_decide (option = lit "query")
         then Some (lit "SELECT address FROM aliases WHERE name = ?")
         else None
       else if bool_decide (section = lit "table:domains") then
         if bool_decide (option = lit "query")
         then Some (lit "SELECT 1 FROM domains WHERE name = ?")
         else if bool_decide (option = lit "transform")
         then Some (lit "domain") else None
       else if bool_decide (section = lit "table:skipped") then
         if bool_decide (option = lit "transform")
         then Some (lit "local") else None
       else if bool_decide (section = lit "logging") then
         if bool_decide (option = lit "level")
         then Some (lit "debug") else None
       else None |}.

(** The registry of [good_config]. *)
Definition good_registry : Config.t :=
  {| Config.db_path := lit "/var/db/mail.sqlite";
     Config.tables :=
       {[ lit "aliases" :=
            {| transform := passthrough;
               query := lit "SELECT address FROM aliases WHERE name = ?" |};
          lit "domains" :=
            {| transform := domain_part;
               query := lit "SELECT 1 FROM domains WHERE name = ?" |} ]} |}.

(** A configuration file whose table names a function of a module, and one
    without a [database] section. *)
Definition reference_config : RawConfigParser :=
  {| sections := [lit "database"; lit "table:aliases"];
     option_value := fun section option =>
       if bool_decide (section = lit "database") then
         if bool_decide (option = lit "path")
         then Some (lit "/var/db/mail.sqlite") else None
       else if bool_decide (section = lit "table:aliases") then
         if bool_decide (option = lit "query")
         then Some (lit "SELECT address FROM aliases WHERE name = ?")
         else if bool_decide (option = lit "transform")
         then Some (lit "mail.filters:lower") else None
       else None |}.

Definition no_database_config : RawConfigParser :=
  {| sections := [lit "table:aliases"];
     option_value := fun section option =>
       if bool_decide (section = lit "table:aliases") then
         if bool_decide (option = lit "query")
         then Some (lit "SELECT address FROM aliases WHERE name = ?")
         else None
       else None |}.

(** A resolver that finds no module. *)
Definition no_resolver (module object : str) : result (str -> result str) :=
  Raise (CollaboratorError (lit "No module named " ++ module)).

(** A payload of [10^11] bytes, the shortest whose length takes twelve
    decimal digits. *)
Definition payload_of_12_digit_length : str :=
  repeat "a"%char (N.to_nat 100000000000).

(** * Properties *)

(** ** Streams: [read] *)

Lemma read_upto_exact (payload rest : str) :
  read_upto (Z.of_nat (length payload)) (payload ++ rest) = (payload, rest).
Proof.
  induction payload as [|c payload IH].
  - destruct rest; reflexivity.
  - cbn [length app read_upto].
    destruct (Z.leb_spec (Z.of_nat (S (length payload))) 0) as [H|H]; [lia|].
    replace (Z.of_nat (S (length payload)) - 1) with (Z.of_nat (length payload))
      by lia.
    now rewrite IH.
Qed.

Lemma read_upto_short (n : Z) (fp : str) :
  Z.of_nat (length fp) < n -> read_upto n fp = (fp, []).
Proof.
  revert n; induction fp as [|c fp IH]; intros n H; [reflexivity|].
  cbn [length read_upto] in *.
  destruct (Z.leb_spec n 0) as [H0|H0]; [lia|].
  rewrite IH by lia. reflexivity.
Qed.

Lemma read_upto_split (n : Z) (fp data rest : str) :
  read_upto n fp = (data, rest) -> fp = data ++ rest.
Proof.
  revert n data rest; induction fp as [|c fp IH]; intros n data rest H;
    cbn [read_upto] in H.
  - now inversion H.
  - destruct (n <=? 0); [now inversion H|].
    destruct (read_upto (n - 1) fp) as [d r] eqn:E.
    inversion H; subst. cbn. f_equal. eauto.
Qed.

Lemma read_split (n : Z) (fp data rest : str) :
  read n fp = (data, rest) -> fp = data ++ rest.
Proof.
  unfold read. destruct (n <? 0).
  - intros H; inversion H; subst. now rewrite app_nil_r.
  - apply read_upto_split.
Qed.

Lemma read_exact (payload rest : str) :
  read (Z.of_nat (length payload)) (payload ++ rest) = (payload, rest).
Proof.
  unfold read.
  destruct (Z.ltb_spec (Z.of_nat (length payload)) 0) as [H|H]; [lia|].
  apply read_upto_exact.
Qed.

Lemma read_short (n : Z) (fp : str) :
  Z.of_nat (length fp) < n -> read n fp = (fp, []).
Proof.
  intros H. unfold read.
  destruct (Z.ltb_spec n 0) as [H0|H0]; [reflexivity|].
  now apply read_upto_short.
Qed.

(** ** Decimal text *)

Ltac ascii_cases c :=
  destruct c as [[] [] [] [] [] [] [] []]; try discriminate; try reflexivity.

Lemma digit_not_space (c : ascii) : is_digit c = true -> isspace c = false.
Proof. ascii_cases c. Qed.

Lemma digit_not_colon (c : ascii) : is_digit c = true -> Ascii.eqb c ":" = false.
Proof. ascii_cases c. Qed.

Lemma digit_not_sign (c : ascii) :
  is_digit c = true -> Ascii.eqb c "-" = false /\ Ascii.eqb c "+" = false.
Proof. ascii_cases c; intros _; split; reflexivity. Qed.

Lemma chars_of_uint_digits (d : Decimal.uint) :
  Forall (fun c => is_digit c = true) (chars_of_uint d).
Proof. induction d; cbn [chars_of_uint]; constructor; auto. Qed.

Lemma uint_of_chars_of_uint (d : Decimal.uint) :
  uint_of_chars (chars_of_uint d) = Some d.
Proof.
  induction d; cbn [chars_of_uint uint_of_chars]; [reflexivity|..];
    rewrite IHd; reflexivity.
Qed.

Lemma length_chars_of_uint (d : Decimal.uint) :
  length (chars_of_uint d) = nb_digits d.
Proof. induction d; cbn [chars_of_uint nb_digits length]; congruence. Qed.

(** The value of a digit string is at least its accumulator shifted by the
    number of digits that follow. *)
Lemma of_uint_acc_lower (d : Decimal.uint) (acc : positive) :
  Z.pos acc * 10 ^ Z.of_nat (nb_digits d) <= Z.pos (Pos.of_uint_acc d acc).
Proof.
  revert acc; induction d; intros acc; cbn [nb_digits Pos.of_uint_acc];
    [rewrite Z.pow_0_r; lia|..];
    rewrite Nat2Z.inj_succ, Z.pow_succ_r by lia;
    (etransitivity; [|apply IHd]);
    assert (0 < 10 ^ Z.of_nat (nb_digits d)) by (apply Z.pow_pos_nonneg; lia);
    nia.
Qed.

(** The decimal text of a positive number starts with a non-zero digit. *)
Lemma pos_to_uint_head (p : positive) :
  exists c l,
    chars_of_uint (Pos.to_uint p) = c :: chars_of_uint l /\
    Ascii.eqb c "0" = false /\
    (10 ^ Z.of_nat (nb_digits l) <= Z.pos p).
Proof.
  pose proof (DecimalPos.Unsigned.of_to p) as Hof.
  pose proof (DecimalPos.Unsigned.to_of (Pos.to_uint p)) as Hto.
  rewrite Hof in Hto. cbn [N.to_uint] in Hto.
  pose proof (DecimalPos.Unsigned.to_uint_nonzero p) as Hnz.
  assert (Hhd : Pos.to_uint p = nzhead (Pos.to_uint p)).
  { unfold unorm in Hto. destruct (nzhead (Pos.to_uint p)) eqn:E; try exact Hto.
    now elim Hnz. }
  pose proof (nzhead_nonzero (Pos.to_uint p)) as Hn0.
  rewrite <- Hhd in Hn0.
  destruct (Pos.to_uint p) as [|l|l|l|l|l|l|l|l|l|l] eqn:E;
    [ now elim (DecimalPos.Unsigned.to_uint_nonnil p)
    | now elim (Hn0 l) | ..];
    cbn [Pos.of_uint] in Hof; injection Hof as Hof;
    eexists _, l; (split; [reflexivity|split; [reflexivity|]]);
    rewrite <- Hof;
    (etransitivity; [|apply of_uint_acc_lower]); lia.
Qed.

Lemma strip_digits (s : str) :
  Forall (fun c => is_digit c = true) s -> strip s = s.
Proof.
  intros H. unfold strip.
  assert (Hl : forall l : str,
             Forall (fun c => is_digit c = true) l -> lstrip l = l).
  { intros [|c l] Hc; [reflexivity|]. cbn [lstrip].
    inversion Hc; subst. now rewrite digit_not_space. }
  rewrite (Hl s H), Hl by (now apply Forall_rev).
  apply rev_involutive.
Qed.

Lemma literal_digits_digits (after_digit : bool) (s : str) :
  Forall (fun c => is_digit c = true) s ->
  s <> [] \/ after_digit = true ->
  literal_digits after_digit s = Some s.
Proof.
  intros H. revert after_digit. induction H as [|c s Hc _ IH];
    intros after_digit Hne; cbn [literal_digits].
  - destruct Hne as [Hne| ->]; [now elim Hne|reflexivity].
  - rewrite Hc, IH by (now right). reflexivity.
Qed.

Lemma int10_digits (u : Decimal.uint) :
  u <> Nil -> int10 (chars_of_uint u) = Ok (Z.of_N (N.of_uint u)).
Proof.
  intros Hu. unfold int10.
  pose proof (chars_of_uint_digits u) as Hd.
  rewrite (strip_digits _ Hd).
  pose proof (uint_of_chars_of_uint u) as Hr.
  destruct (chars_of_uint u) as [|c ds] eqn:E.
  - destruct u; cbn in E; congruence.
  - inversion Hd as [|? ? Hc _]; subst.
    destruct (digit_not_sign c Hc) as [-> ->].
    rewrite literal_digits_digits by (assumption || now left).
    now rewrite Hr.
Qed.

Lemma int10_str_of_int (z : Z) : 0 <= z -> int10 (str_of_int z) = Ok z.
Proof.
  destruct z as [|p|p]; intros Hz; [reflexivity| |lia].
  cbn [str_of_int]. rewrite int10_digits.
  - change (N.of_uint (Pos.to_uint p)) with (Pos.of_uint (Pos.to_uint p)).
    now rewrite DecimalPos.Unsigned.of_to.
  - apply DecimalPos.Unsigned.to_uint_nonnil.
Qed.

(** ** The length prefix *)

Lemma digits_not_colon (ds : str) :
  Forall (fun c => is_digit c = true) ds -> Forall not_colon ds.
Proof.
  intros H. eapply Forall_impl; [exact H|]. intros c. apply digit_not_colon.
Qed.

(** A prefix of at most 11 characters without a leading ['0'] is read up
    to the colon. *)
Lemma read_length_prefix (n ds rest : str) :
  Forall not_colon ds ->
  (length n + length ds <= 11)%nat ->
  (n <> [] \/ match ds with c :: _ => Ascii.eqb c "0" = false | [] => True end) ->
  read_length n (ds ++ ":"%char :: rest) = LenBreak (n ++ ds) rest.
Proof.
  revert n; induction ds as [|c ds IH]; intros n Hc Hlen Hz.
  - cbn. now rewrite app_nil_r.
  - inversion Hc as [|? ? Hc1 Hc2]; subst. cbn [app read_length length] in *.
    rewrite Hc1.
    destruct (Nat.ltb_spec 10 (length n)) as [H|H]; [lia|].
    assert (Hz' : Ascii.eqb c "0" && bool_decide (n = []) = false).
    { destruct Hz as [Hz|Hz]; [|now rewrite Hz].
      rewrite bool_decide_eq_false_2 by assumption. apply andb_false_r. }
    rewrite Hz'. rewrite IH; try assumption.
    + now rewrite <- app_assoc.
    + rewrite length_app. cbn. lia.
    + left. now destruct n.
Qed.

(** Twelve characters or more without a colon raise the framing error,
    whatever follows them. *)
Lemma read_length_overlong (n ds rest : str) :
  Forall not_colon ds ->
  ds <> [] ->
  (11 < length n + length ds)%nat ->
  read_length n (ds ++ rest) = LenRaise MalformedNetstringError.
Proof.
  revert n; induction ds as [|c ds IH]; intros n Hc Hne Hlen; [congruence|].
  inversion Hc as [|? ? Hc1 Hc2]; subst. cbn [app read_length length] in *.
  rewrite Hc1.
  destruct (Nat.ltb_spec 10 (length n)) as [H|H]; [reflexivity|].
  destruct ds as [|c' ds]; [cbn in Hlen; lia|].
  destruct (Ascii.eqb c "0" && bool_decide (n = [])).
  - cbn [app]. inversion Hc2 as [|? ? Hc' _]; subst. now rewrite Hc'.
  - apply IH; [assumption|congruence|].
    rewrite length_app. cbn [length] in *. lia.
Qed.

(** ** Frames *)

Lemma netstring_unfold (response : str) :
  Handler.netstring response =
  str_of_int (Z.of_nat (length response)) ++ ":"%char :: response ++ [","%char].
Proof. reflexivity. Qed.

(** The decimal text of a length below [10^11] is read up to the colon. *)
Lemma read_length_str_of_int (z : Z) (rest : str) :
  0 <= z < 10 ^ 11 ->
  read_length [] (str_of_int z ++ ":"%char :: rest)
  = LenBreak (str_of_int z) rest.
Proof.
  intros Hz. destruct z as [|p|p]; [reflexivity| |lia].
  cbn [str_of_int].
  destruct (pos_to_uint_head p) as (c & l & Hc & Hc0 & Hp).
  assert (Hl : (nb_digits l < 11)%nat).
  { apply Nat2Z.inj_lt. apply (Z.pow_lt_mono_r_iff 10); lia. }
  apply (read_length_prefix []).
  - apply digits_not_colon, chars_of_uint_digits.
  - rewrite Hc. cbn [length]. rewrite length_chars_of_uint. lia.
  - right. now rewrite Hc.
Qed.

(** A frame of fewer than [10^11] bytes is read back by one turn of the
    generator, which stays suspended on what follows the frame. *)
Lemma next_frame_netstring (payload rest : str) :
  Z.of_nat (length payload) < 10 ^ 11 ->
  next_frame (Handler.netstring payload ++ rest) = FrameYield payload rest.
Proof.
  intros Hlen. rewrite netstring_unfold. unfold next_frame.
  rewrite <- app_assoc. cbn [app]. rewrite <- app_assoc. cbn [app].
  rewrite read_length_str_of_int by lia.
  rewrite int10_str_of_int by lia.
  rewrite read_exact, Z.ltb_irrefl. reflexivity.
Qed.

(** ** Fuel: the generator always comes to an end *)

Lemma read_length_shorter (n fp n' fp1 : str) :
  read_length n fp = LenBreak n' fp1 -> (length fp1 < length fp)%nat.
Proof.
  revert n; induction fp as [|c fp IH]; intros n H; cbn [read_length] in H;
    [discriminate|].
  cbn [length].
  destruct (Ascii.eqb c ":"); [inversion H; subst; lia|].
  destruct (10 <? length n)%nat; [discriminate|].
  destruct (Ascii.eqb c "0" && bool_decide (n = [])).
  - destruct fp as [|c' fp']; [discriminate|].
    destruct (Ascii.eqb c' ":"); [|discriminate].
    inversion H; subst. cbn [length]. lia.
  - apply IH in H. lia.
Qed.

Lemma next_frame_shorter (fp payload rest : str) :
  next_frame fp = FrameYield payload rest -> (length rest < length fp)%nat.
Proof.
  unfold next_frame. intros H.
  destruct (read_length [] fp) as [| |n fp1] eqn:Hn; try discriminate.
  apply read_length_shorter in Hn.
  destruct (int10 n) as [z|]; [|discriminate].
  destruct (read z fp1) as [data fp2] eqn:Hr.
  apply read_split in Hr. subst fp1. rewrite length_app in Hn.
  destruct (Z.of_nat (length data) <? z); [discriminate|].
  destruct fp2 as [|c fp3]; [discriminate|].
  destruct (Ascii.eqb c ","); [|discriminate].
  inversion H; subst. cbn [length] in Hn. lia.
Qed.

Lemma reader_loop_S (fuel : nat) (fp : str) :
  reader_loop (S fuel) fp =
  match next_frame fp with
  | FrameReturn => Some ([], Returned)
  | FrameRaise e => Some ([], Raised e)
  | FrameYield payload fp' =>
      match reader_loop fuel fp' with
      | Some (payloads, e) => Some (payload :: payloads, e)
      | None => None
      end
  end.
Proof. reflexivity. Qed.

Lemma reader_loop_mono (fuel fuel' : nat) (fp : str) r :
  (fuel <= fuel')%nat ->
  reader_loop fuel fp = Some r -> reader_loop fuel' fp = Some r.
Proof.
  revert fuel' fp r; induction fuel as [|fuel IH]; intros fuel' fp r Hle H;
    [discriminate|].
  destruct fuel' as [|fuel']; [lia|]. cbn [reader_loop] in *.
  destruct (next_frame fp) as [| |payload fp']; try assumption.
  destruct (reader_loop fuel fp') as [[ps e]|] eqn:E; [|discriminate].
  now rewrite (IH fuel' fp' (ps, e)) by (lia || assumption).
Qed.

Lemma reader_loop_total (fuel : nat) (fp : str) :
  (length fp < fuel)%nat -> exists r, reader_loop fuel fp = Some r.
Proof.
  revert fp; induction fuel as [|fuel IH]; intros fp Hlt; [lia|].
  cbn [reader_loop].
  destruct (next_frame fp) as [| |payload fp'] eqn:E; eauto.
  apply next_frame_shorter in E.
  destruct (IH fp') as [[ps e] ->]; [lia|]. eauto.
Qed.

(** The generator is total: on every stream it yields finitely many
    payloads and then returns or raises. *)
Lemma netstring_reader_total (fp : str) :
  exists payloads e, netstring_reader fp = Some (payloads, e).
Proof.
  destruct (reader_loop_total (S (length fp)) fp) as [[ps e] H]; [lia|].
  now exists ps, e.
Qed.

(** A run with any fuel that comes to an end is the run of the generator. *)
Lemma reader_loop_complete (fuel : nat) (fp : str) r :
  reader_loop fuel fp = Some r -> netstring_reader fp = Some r.
Proof.
  intros H. destruct (netstring_reader_total fp) as (ps & e & Ht).
  rewrite Ht. unfold netstring_reader in Ht.
  destruct (Nat.le_ge_cases fuel (S (length fp))) as [Hle|Hle].
  - rewrite (reader_loop_mono _ _ _ _ Hle H) in Ht. now inversion Ht.
  - rewrite (reader_loop_mono _ _ _ _ Hle Ht) in H. now inversion H.
Qed.

Lemma netstring_reader_step (fp : str) :
  netstring_reader fp =
  match next_frame fp with
  | FrameReturn => Some ([], Returned)
  | FrameRaise e => Some ([], Raised e)
  | FrameYield payload fp' =>
      match netstring_reader fp' with
      | Some (payloads, e) => Some (payload :: payloads, e)
      | None => None
      end
  end.
Proof.
  destruct (next_frame fp) as [| |payload fp'] eqn:E.
  - unfold netstring_reader. cbn [reader_loop]. now rewrite E.
  - unfold netstring_reader. cbn [reader_loop]. now rewrite E.
  - destruct (netstring_reader_total fp') as (ps & e & Ht). rewrite Ht.
    apply (reader_loop_complete (S (S (length fp')))).
    unfold netstring_reader in Ht.
    now rewrite reader_loop_S, E, Ht.
Qed.

(** Well-formed frames followed by a stream are yielded in order, and the
    generator goes on with that stream. *)
Lemma netstring_reader_frames (payloads : list str) (fp : str) :
  Forall (fun p : str => Z.of_nat (length p) < 10 ^ 11) payloads ->
  netstring_reader (concat (map Handler.netstring payloads) ++ fp) =
  match netstring_reader fp with
  | Some (more, e) => Some (payloads ++ more, e)
  | None => None
  end.
Proof.
  induction 1 as [|p ps Hp _ IH]; cbn [map concat app].
  - now destruct (netstring_reader fp) as [[? ?]|].
  - rewrite netstring_reader_step, <- app_assoc, next_frame_netstring by assumption.
    rewrite IH. now destruct (netstring_reader fp) as [[? ?]|].
Qed.

Lemma next_frame_overlong (ds rest : str) :
  Forall not_colon ds ->
  (11 < length ds)%nat ->
  next_frame (ds ++ rest) = FrameRaise MalformedNetstringError.
Proof.
  intros Hc Hlen. unfold next_frame.
  rewrite read_length_overlong; [reflexivity|assumption| |assumption].
  destruct ds; [cbn in Hlen; lia|discriminate].
Qed.

(** A run of twelve or more characters without a colon at the start of a
    frame is a framing error. *)
Lemma netstring_reader_overlong (ds rest : str) :
  Forall not_colon ds ->
  (11 < length ds)%nat ->
  netstring_reader (ds ++ rest) = Some ([], Raised MalformedNetstringError).
Proof.
  intros Hc Hlen. rewrite netstring_reader_step.
  now rewrite next_frame_overlong.
Qed.

(** Encoding then decoding, for a payload of fewer than [10^11] bytes. *)
Lemma netstring_reader_netstring (payload : str) :
  Z.of_nat (length payload) < 10 ^ 11 ->
  netstring_reader (Handler.netstring payload) = Some ([payload], Returned).
Proof.
  intros H. rewrite netstring_reader_step.
  rewrite <- (app_nil_r (Handler.netstring payload)).
  rewrite next_frame_netstring by assumption.
  reflexivity.
Qed.

Lemma next_frame_truncated (fp n fp1 : str) (N : Z) :
  read_length [] fp = LenBreak n fp1 ->
  int10 n = Ok N ->
  Z.of_nat (length fp1) < N ->
  next_frame fp = FrameReturn.
Proof.
  intros Hn HN Hshort. unfold next_frame.
  rewrite Hn, HN, read_short by assumption.
  destruct (Z.ltb_spec (Z.of_nat (length fp1)) N); [reflexivity|lia].
Qed.

(** Complete frames followed by a truncated one: the complete frames are
    yielded, the truncated one is not, and no error is raised. *)
Lemma truncated_after_frames (payloads : list str) (N : Z) (fp1 : str) :
  Forall (fun p : str => Z.of_nat (length p) < 10 ^ 11) payloads ->
  0 <= N < 10 ^ 11 ->
  Z.of_nat (length fp1) < N ->
  netstring_reader
    (concat (map Handler.netstring payloads)
       ++ str_of_int N ++ ":"%char :: fp1)
  = Some (payloads, Returned).
Proof.
  intros Hps HN Hshort. rewrite netstring_reader_frames by assumption.
  rewrite netstring_reader_step.
  rewrite (next_frame_truncated _ (str_of_int N) fp1 N).
  - now rewrite app_nil_r.
  - now apply read_length_str_of_int.
  - apply int10_str_of_int. lia.
  - assumption.
Qed.

(** ** The claims on the framing codec *)

(** C2 (the code departs from the claim): a run of exactly eleven digits
    before the colon is not a framing error.  The test [len(n) > 10] is made
    before the character read is appended, so the eleventh character is
    still accepted: the prefix is read whole, parsed as the length
    12345678901, and the stream, which ends after three payload bytes, ends
    the generator without an error. *)
Theorem C2_eleven_digit_prefix_is_accepted :
  read_length [] (lit "12345678901:abc")
  = LenBreak (lit "12345678901") (lit "abc") /\
  int10 (lit "12345678901") = Ok 12345678901 /\
  netstring_reader (lit "12345678901:abc") = Some ([], Returned).
Proof. repeat split; vm_compute; reflexivity. Qed.

Lemma length_payload_of_12_digit_length :
  Z.of_nat (length payload_of_12_digit_length) = 100000000000.
Proof.
  unfold payload_of_12_digit_length.
  rewrite repeat_length, N_nat_Z. reflexivity.
Qed.

(** C3, as stated, fails: the frame of a payload of [10^11] bytes has a
    twelve-digit length, which the reader refuses, so the payload does not
    come back. *)
Lemma C3_roundtrip_counterexample :
  netstring_reader (Handler.netstring payload_of_12_digit_length)
  = Some ([], Raised MalformedNetstringError) /\
  netstring_reader (Handler.netstring payload_of_12_digit_length)
  <> Some ([payload_of_12_digit_length], Returned).
Proof.
  assert (H : netstring_reader (Handler.netstring payload_of_12_digit_length)
              = Some ([], Raised MalformedNetstringError)).
  { rewrite netstring_unfold, length_payload_of_12_digit_length.
    change (str_of_int 100000000000) with (lit "100000000000").
    apply netstring_reader_overlong.
    - unfold lit, list_ascii_of_string. repeat constructor.
    - unfold lit, list_ascii_of_string, length. lia. }
  split; [exact H|]. rewrite H. discriminate.
Qed.

(** C3 (amended): round trip.  For every payload whose length has at most
    ten decimal digits, the empty payload included, the frame written for it
    ([len], [':'], the payload, [',']) is decoded to exactly that payload,
    as the single frame, and the generator then returns. *)
Theorem C3_roundtrip (payload : str) :
  Z.of_nat (length payload) < 10 ^ 10 ->
  netstring_reader (Handler.netstring payload) = Some ([payload], Returned).
Proof. intros H. apply netstring_reader_netstring. lia. Qed.

Lemma C3_roundtrip_witness :
  netstring_reader (Handler.netstring (lit "OK value1"))
  = Some ([lit "OK value1"], Returned) /\
  netstring_reader (Handler.netstring []) = Some ([[]], Returned).
Proof.
  split.
  - apply (C3_roundtrip (lit "OK value1")). vm_compute. reflexivity.
  - apply (C3_roundtrip []). vm_compute. reflexivity.
Defined.

(** C4: leading-zero rule.  When the first character of a length prefix is
    ['0'] and the next read does not give [':'], the generator raises the
    framing error; so ["00:,"] and ["007:abc1234,"] are framing errors, and
    ["0:,"] yields exactly one empty payload. *)
Theorem C4_leading_zero_rule :
  (forall fp : str,
      hd_error fp <> Some ":"%char ->
      netstring_reader ("0"%char :: fp)
      = Some ([], Raised MalformedNetstringError)) /\
  netstring_reader (lit "00:,") = Some ([], Raised MalformedNetstringError) /\
  netstring_reader (lit "007:abc1234,")
  = Some ([], Raised MalformedNetstringError) /\
  netstring_reader (lit "0:,") = Some ([[]], Returned).
Proof.
  split; [|repeat split; vm_compute; reflexivity].
  intros fp Hfp. rewrite netstring_reader_step. unfold next_frame.
  cbn [read_length length Nat.ltb Nat.leb].
  change (Ascii.eqb "0" ":") with false.
  change (Ascii.eqb "0" "0") with true.
  rewrite bool_decide_eq_true_2 by reflexivity. cbn [andb].
  destruct fp as [|c fp]; [reflexivity|].
  destruct (Ascii.eqb_spec c ":") as [->|Hc]; [now elim Hfp|reflexivity].
Qed.

Lemma C4_leading_zero_rule_witness :
  netstring_reader ("0"%char :: lit "7:abc1234,")
  = Some ([], Raised MalformedNetstringError).
Proof.
  apply (proj1 C4_leading_zero_rule (lit "7:abc1234,")).
  vm_compute. discriminate.
Defined.

(** C7: truncation tolerance.  When a length prefix [n] has been read and
    declares the length [N], and fewer than [N] bytes remain in the stream,
    the generator returns: no frame is yielded for the truncated data and no
    error is raised. *)
Theorem C7_truncated_payload_ends_cleanly (fp n fp1 : str) (N : Z) :
  read_length [] fp = LenBreak n fp1 ->
  int10 n = Ok N ->
  Z.of_nat (length fp1) < N ->
  netstring_reader fp = Some ([], Returned).
Proof.
  intros Hn HN Hshort. rewrite netstring_reader_step.
  now rewrite (next_frame_truncated fp n fp1 N).
Qed.

Lemma C7_truncated_payload_ends_cleanly_witness :
  netstring_reader (lit "11:aliases fo") = Some ([], Returned).
Proof.
  apply (C7_truncated_payload_ends_cleanly
           (lit "11:aliases fo") (lit "11") (lit "aliases fo") 11);
    vm_compute; reflexivity.
Defined.

(** C10: the stream that is the single byte ['0'] raises the framing
    error: after a leading ['0'] the end of the stream is not [':']. *)
Theorem C10_lone_zero_is_a_framing_error :
  netstring_reader (lit "0") = Some ([], Raised MalformedNetstringError).
Proof. reflexivity. Qed.

(** ** Requests *)

Lemma find_sep_app (sep : ascii) (before after : str) :
  sep ∉ before -> find_sep sep (before ++ sep :: after) = Some (before, after).
Proof.
  induction before as [|c before IH]; intros Hnot; cbn [app find_sep].
  - now rewrite Ascii.eqb_refl.
  - apply not_elem_of_cons in Hnot as [Hc Hnot].
    destruct (Ascii.eqb_spec c sep) as [->|_]; [congruence|].
    now rewrite IH.
Qed.

Lemma find_sep_None (sep : ascii) (s : str) :
  sep ∉ s -> find_sep sep s = None.
Proof.
  induction s as [|c s IH]; intros Hnot; cbn [find_sep]; [reflexivity|].
  apply not_elem_of_cons in Hnot as [Hc Hnot].
  destruct (Ascii.eqb_spec c sep) as [->|_]; [congruence|].
  now rewrite IH.
Qed.

(** A request with a space is split at the first one. *)
Lemma split_request (table_name arg : str) :
  " "%char ∉ table_name ->
  unpack2 (split1 " " (table_name ++ " "%char :: arg)) = Ok (table_name, arg).
Proof. intros H. unfold split1. now rewrite find_sep_app. Qed.

(** A request without a space cannot be unpacked into a table name and an
    argument; the assignment is outside the [try] of [handle]. *)
Lemma handle_request_no_space (self : server) (wfile request : str) :
  " "%char ∉ request ->
  Handler.handle_request self wfile request
  = Raise (ValueError (lit "need more than 1 value to unpack")).
Proof.
  intros H. unfold Handler.handle_request, split1.
  now rewrite find_sep_None.
Qed.

(** ** The claims on the handler *)

(** C1 (the code departs from the claim): the request ["justoneword"] has no
    space, so [request.split(' ', 1)] has one element and the assignment to
    [table_name, arg], which stands before the [try], raises [ValueError];
    nothing is written and the exception leaves [handle]. *)
Theorem C1_request_without_space_escapes (self : server) :
  Handler.handle_request self [] (lit "justoneword")
  = Raise (ValueError (lit "need more than 1 value to unpack")) /\
  Handler.handle self (lit "11:justoneword,")
  = Some ([], Raised (ValueError (lit "need more than 1 value to unpack"))).
Proof. split; reflexivity. Qed.



(** C6: unknown table.  For a request [table_name arg] whose table is not
    in the registry, the response written is the frame of ["PERM "] followed
    by the table name, and no exception leaves the loop body. *)
Theorem C6_unknown_table (self : server) (wfile table_name arg : str) :
  " "%char ∉ table_name ->
  tables self !! table_name = None ->
  Handler.handle_request self wfile (table_name ++ " "%char :: arg)
  = Ok (wfile ++ Handler.netstring (lit "PERM " ++ table_name)).
Proof.
  intros Hsp Htab. unfold Handler.handle_request, Handler.run_query.
  rewrite split_request by assumption. cbn [bind].
  now rewrite Htab.
Qed.


Lemma C6_unknown_table_witness :
  Handler.handle_request sample_server [] (lit "nosuch key")
  = Ok (lit "11:PERM nosuch,").
Proof.
  refine (C6_unknown_table sample_server [] (lit "nosuch") (lit "key") _ _);
    try (vm_compute; reflexivity).
  apply (bool_decide_unpack _). vm_compute. exact I.
Defined.

(** [handle] always comes to an end: it returns when the generator does,
    and an exception of the generator or of the loop body leaves it. *)
Lemma handle_loop_total (fuel : nat) (self : server) (rfile wfile : str) :
  (length rfile < fuel)%nat ->
  exists out e, Handler.handle_loop fuel self rfile wfile = Some (out, e).
Proof.
  revert rfile wfile; induction fuel as [|fuel IH]; intros rfile wfile Hlt;
    [lia|].
  cbn [Handler.handle_loop].
  destruct (next_frame rfile) as [| |request rfile'] eqn:E; eauto.
  apply next_frame_shorter in E.
  destruct (Handler.handle_request self wfile request); eauto.
  apply IH. lia.
Qed.

Lemma handle_total (self : server) (rfile : str) :
  exists out e, Handler.handle self rfile = Some (out, e).
Proof. apply handle_loop_total. lia. Qed.

(** One connection, three requests: a hit, an unknown table, a miss.  The
    error response to the second does not disturb the third. *)
Example handle_three_requests :
  Handler.handle sample_server
    (lit "11:aliases foo,10:nosuch key,11:aliases bar,")
  = Some (lit "9:OK value1,11:PERM nosuch,9:NOTFOUND ,", Returned).
Proof. vm_compute. reflexivity. Qed.

(** A first column that is not a text is not turned into a response: the
    concatenation is in the [else] branch of the [try]. *)
Example handle_request_non_text_column (self : server) (wfile : str) :
  tables self !! lit "aliases" = Some sample_table ->
  db_conn self (query sample_table) (lit "foo")
  = Ok (Some [NonText (lit "int")]) ->
  Handler.handle_request self wfile (lit "aliases foo")
  = Raise (TypeError (lit "cannot concatenate 'str' and 'int' objects")).
Proof.
  intros Htab Hdb.
  unfold Handler.handle_request, Handler.run_query, Handler._query_db.
  change (unpack2 (split1 " " (lit "aliases foo")))
    with (Ok (lit "aliases", lit "foo")).
  cbn [bind]. rewrite Htab. cbn [bind sample_table transform passthrough].
  change (query _) with (query sample_table). now rewrite Hdb.
Qed.

(** ** The claims on the table registry *)

Lemma local_part_spec (local domain : str) :
  "@"%char ∉ local ->
  local_part (local ++ "@"%char :: domain) = Ok local.
Proof. intros H. unfold local_part, split1. now rewrite find_sep_app. Qed.

Lemma domain_part_spec (local domain : str) :
  "@"%char ∉ local ->
  domain_part (local ++ "@"%char :: domain) = Ok domain.
Proof. intros H. unfold domain_part, split1. now rewrite find_sep_app. Qed.

Lemma domain_part_no_at (arg : str) :
  "@"%char ∉ arg ->
  domain_part arg = Raise (IndexError (lit "list index out of range")).
Proof. intros H. unfold domain_part, split1. now rewrite find_sep_None. Qed.

(** C8: transform semantics.  The local-part transform takes
    ["user@example.com"] to ["user"], the domain-part transform takes it to
    ["example.com"], and the passthrough transform returns every argument
    unchanged. *)
Theorem C8_transform_semantics :
  local_part (lit "user@example.com") = Ok (lit "user") /\
  domain_part (lit "user@example.com") = Ok (lit "example.com") /\
  (forall arg : str, passthrough arg = Ok arg).
Proof. repeat split. Qed.

(** The names the configuration uses for the three transforms. *)
Lemma transform_of_builtin (resolve : str -> str -> result (str -> result str)) :
  transform_of resolve (lit "all") = Ok passthrough /\
  transform_of resolve (lit "local") = Ok local_part /\
  transform_of resolve (lit "domain") = Ok domain_part.
Proof. repeat split. Qed.

Example FUNC_REF_PATTERN_examples :
  fullmatch FUNC_REF_PATTERN (lit "os.path:join") = true /\
  match_ (lit "Pkg.mod_1:Cls.method") = Ok (lit "Pkg.mod_1", lit "Cls.method") /\
  fullmatch FUNC_REF_PATTERN (lit "local-part") = false /\
  fullmatch FUNC_REF_PATTERN (lit "a:b:c") = false /\
  fullmatch FUNC_REF_PATTERN (lit "a.:b") = false /\
  fullmatch FUNC_REF_PATTERN (lit "1a:b") = false /\
  fullmatch FUNC_REF_PATTERN (lit ":b") = false.
Proof. repeat split. Qed.

Section build_failure.

Variable resolve : str -> str -> result (str -> result str).
Variable cp : RawConfigParser.

Lemma transform_of_malformed (transform_name : str) :
  transform_name ∉ builtin_names ->
  fullmatch FUNC_REF_PATTERN transform_name = false ->
  transform_of resolve transform_name
  = Raise (ValueError (lit "Malformed callable '" ++ transform_name ++ lit "'")).
Proof.
  intros Hb Hm. unfold transform_of, builtin_names in *.
  rewrite !not_elem_of_cons in Hb. destruct Hb as (H1 & H2 & H3 & _).
  rewrite !bool_decide_eq_false_2 by assumption.
  unfold match_. now rewrite Hm.
Qed.

Lemma parse_sections_malformed (section transform_name : str)
    (todo : list str) (tables : gmap str table) :
  section ∈ todo ->
  startswith (lit "table:") section = true ->
  has_option cp section (lit "query") = true ->
  option_value cp section (lit "transform") = Some transform_name ->
  transform_name ∉ builtin_names ->
  fullmatch FUNC_REF_PATTERN transform_name = false ->
  exists e, parse_sections resolve cp todo tables = Raise e.
Proof.
  intros Hin Hst Hq Htr Hb Hm. revert tables.
  induction todo as [|s todo IH]; intros tables;
    [now apply elem_of_nil in Hin|].
  cbn [parse_sections].
  destruct (decide (s = section)) as [->|Hne].
  - rewrite Hst.
    destruct (unpack2 (split1 ":" section)) as [[? table_name]|e];
      cbn [bind]; [|eauto].
    rewrite Hq. cbn [negb].
    unfold transform_name_of, get.
    apply andb_prop in Hq as [Hsec _]. rewrite Hsec, Htr. cbn [bind].
    rewrite transform_of_malformed by assumption. cbn [bind]. eauto.
  - apply elem_of_cons in Hin as [Heq|Hin]; [congruence|].
    specialize (IH Hin).
    destruct (startswith (lit "table:") s); [|apply IH].
    destruct (unpack2 (split1 ":" s)) as [[? table_name]|e];
      cbn [bind]; [|eauto].
    destruct (negb (has_option cp s (lit "query"))); [apply IH|].
    destruct (transform_name_of cp s); cbn [bind]; [|eauto].
    destruct (transform_of resolve a); cbn [bind]; [|eauto].
    destruct (get cp s (lit "query")); cbn [bind]; [|eauto].
    apply IH.
Qed.

End build_failure.

(** C9, as stated, fails: a table section without a [query] option is
    skipped before its transform is looked at, so a transform specification
    that is neither a built-in name nor a [module:object] reference does not
    fail the build there: the registry is built, without the entry. *)
Lemma C9_build_failure_counterexample :
  option_value (sample_config false) (lit "table:aliases") (lit "transform")
  = Some (lit "local-part") /\
  bool_decide (lit "local-part" ∈ builtin_names) = false /\
  fullmatch FUNC_REF_PATTERN (lit "local-part") = false /\
  parse_config no_resolver (sample_config false)
  = Ok {| Config.db_path := lit "/var/db/mail.sqlite"; Config.tables := ∅ |}.
Proof. repeat split. Qed.

(** C9 (amended): registry build failure.  For every table section that
    has a query and whose transform specification is neither one of the
    built-in names nor matches the [module:object] pattern, [parse_config]
    raises an exception: no registry is built. *)
Theorem C9_build_failure
    (resolve : str -> str -> result (str -> result str))
    (cp : RawConfigParser) (section transform_name : str) :
  section ∈ sections cp ->
  startswith (lit "table:") section = true ->
  has_option cp section (lit "query") = true ->
  option_value cp section (lit "transform") = Some transform_name ->
  transform_name ∉ builtin_names ->
  fullmatch FUNC_REF_PATTERN transform_name = false ->
  exists e, parse_config resolve cp = Raise e.
Proof.
  intros Hin Hst Hq Htr Hb Hm. unfold parse_config.
  destruct (get cp (lit "database") (lit "path")); cbn [bind]; [|eauto].
  destruct (parse_sections_malformed resolve cp section transform_name
              (sections cp) ∅ Hin Hst Hq Htr Hb Hm) as [e ->].
  cbn [bind]. eauto.
Qed.

Lemma C9_build_failure_witness :
  exists e, parse_config no_resolver (sample_config true) = Raise e.
Proof.
  refine (C9_build_failure no_resolver (sample_config true)
            (lit "table:aliases") (lit "local-part") _ _ _ _ _ _);
    try (vm_compute; reflexivity);
    apply (bool_decide_unpack _); vm_compute; exact I.
Defined.

(** The error of that build is the [ValueError] of [match]. *)
Example sample_config_error :
  parse_config no_resolver (sample_config true)
  = Raise (ValueError (lit "Malformed callable 'local-part'")).
Proof. vm_compute. reflexivity. Qed.

(** * Further properties of the framing codec *)

(** X1: any number of frames written one after the other are read back as
    exactly their payloads, in order, and the generator returns at the end
    of the stream. *)
Theorem frames_roundtrip (payloads : list str) :
  Forall (fun p : str => Z.of_nat (length p) < 10 ^ 11) payloads ->
  netstring_reader (concat (map Handler.netstring payloads))
  = Some (payloads, Returned).
Proof.
  intros H. rewrite <- (app_nil_r (concat (map Handler.netstring payloads))).
  rewrite netstring_reader_frames by assumption.
  change (netstring_reader []) with (Some (@nil str, Returned)).
  cbv beta iota. now rewrite app_nil_r.
Qed.

Lemma frames_roundtrip_witness :
  netstring_reader
    (concat (map Handler.netstring [lit "aliases foo"; []; lit "nosuch key"]))
  = Some ([lit "aliases foo"; []; lit "nosuch key"], Returned).
Proof.
  apply (frames_roundtrip [lit "aliases foo"; []; lit "nosuch key"]).
  repeat constructor.
Defined.

(** X2: a stream that starts with twelve or more characters none of which
    is a colon raises the framing error, whatever the characters are and
    whatever follows. *)
Theorem overlong_prefix_is_a_framing_error (ds rest : str) :
  Forall not_colon ds ->
  (12 <= length ds)%nat ->
  netstring_reader (ds ++ rest) = Some ([], Raised MalformedNetstringError).
Proof. intros Hc Hlen. apply netstring_reader_overlong; [assumption|lia]. Qed.

Lemma overlong_prefix_is_a_framing_error_witness :
  netstring_reader (lit "123456789012" ++ lit ":abc,")
  = Some ([], Raised MalformedNetstringError).
Proof.
  apply (overlong_prefix_is_a_framing_error (lit "123456789012") (lit ":abc,")).
  - repeat constructor.
  - vm_compute. lia.
Defined.

(** X3: a payload that is complete but not followed by a comma (another
    byte, or the end of the stream) raises the framing error, and the
    payload is not yielded. *)
Theorem missing_terminator_is_a_framing_error (payload rest : str) :
  Z.of_nat (length payload) < 10 ^ 11 ->
  hd_error rest <> Some ","%char ->
  netstring_reader
    (str_of_int (Z.of_nat (length payload)) ++ ":"%char :: payload ++ rest)
  = Some ([], Raised MalformedNetstringError).
Proof.
  intros Hlen Hrest. rewrite netstring_reader_step. unfold next_frame.
  rewrite read_length_str_of_int by lia.
  rewrite int10_str_of_int by lia.
  rewrite read_exact, Z.ltb_irrefl.
  destruct rest as [|c rest]; [reflexivity|].
  destruct (Ascii.eqb_spec c ",") as [->|_]; [now elim Hrest|reflexivity].
Qed.

Lemma missing_terminator_is_a_framing_error_witness :
  netstring_reader (lit "3:abc;3:def,")
  = Some ([], Raised MalformedNetstringError).
Proof.
  apply (missing_terminator_is_a_framing_error (lit "abc") (lit ";3:def,")).
  - vm_compute. reflexivity.
  - vm_compute. discriminate.
Defined.

Lemma read_length_eof (n ds : str) :
  Forall not_colon ds ->
  (length n + length ds <= 11)%nat ->
  (n <> [] \/ match ds with c :: _ => Ascii.eqb c "0" = false | [] => True end) ->
  read_length n ds = LenReturn.
Proof.
  revert n; induction ds as [|c ds IH]; intros n Hc Hlen Hz; [reflexivity|].
  inversion Hc as [|? ? Hc1 Hc2]; subst. cbn [read_length length] in *.
  rewrite Hc1.
  destruct (Nat.ltb_spec 10 (length n)) as [H|H]; [lia|].
  assert (Hz' : Ascii.eqb c "0" && bool_decide (n = []) = false).
  { destruct Hz as [Hz|Hz]; [|now rewrite Hz].
    rewrite bool_decide_eq_false_2 by assumption. apply andb_false_r. }
  rewrite Hz'. apply IH; [assumption| |left; now destruct n].
  rewrite length_app. cbn. lia.
Qed.

(** X4: a stream that ends inside a length prefix (no colon, at most eleven
    characters, no leading ['0']) ends the generator without an error, the
    empty stream included: the characters read so far are dropped. *)
Theorem eof_in_prefix_ends_cleanly (ds : str) :
  Forall not_colon ds ->
  (length ds <= 11)%nat ->
  hd_error ds <> Some "0"%char ->
  netstring_reader ds = Some ([], Returned).
Proof.
  intros Hc Hlen Hz. rewrite netstring_reader_step. unfold next_frame.
  rewrite read_length_eof; [reflexivity|assumption|cbn; lia|].
  right. destruct ds as [|c ds]; [exact I|].
  destruct (Ascii.eqb_spec c "0") as [->|_]; [now elim Hz|reflexivity].
Qed.

Lemma eof_in_prefix_ends_cleanly_witness :
  netstring_reader (lit "12") = Some ([], Returned) /\
  netstring_reader [] = Some ([], Returned).
Proof.
  split.
  - apply (eof_in_prefix_ends_cleanly (lit "12")).
    + repeat constructor.
    + vm_compute. lia.
    + vm_compute. discriminate.
  - apply (eof_in_prefix_ends_cleanly []).
    + constructor.
    + vm_compute. lia.
    + vm_compute. discriminate.
Defined.

Lemma lstrip_In (c : ascii) (s : str) :
  In c s -> isspace c = false -> In c (lstrip s).
Proof.
  intros Hin Hc. induction s as [|c0 s IH]; [assumption|].
  cbn [lstrip]. destruct (isspace c0) eqn:E; [|assumption].
  destruct Hin as [->|Hin]; [congruence|auto].
Qed.

Lemma strip_In (c : ascii) (s : str) :
  In c s -> isspace c = false -> In c (strip s).
Proof.
  intros Hin Hc. unfold strip.
  apply in_rev. rewrite rev_involutive.
  apply lstrip_In; [|assumption]. apply -> in_rev.
  now apply lstrip_In.
Qed.

Lemma literal_digits_In (c : ascii) (after_digit : bool) (s : str) :
  In c s -> is_digit c = false -> c <> "_"%char ->
  literal_digits after_digit s = None.
Proof.
  intros Hin Hd Hu. revert after_digit.
  induction s as [|c0 s IH]; intros after_digit; [elim Hin|].
  cbn [literal_digits]. destruct Hin as [->|Hin].
  - rewrite Hd. now destruct (Ascii.eqb_spec c "_").
  - destruct (is_digit c0); [now rewrite IH|].
    destruct (Ascii.eqb c0 "_" && after_digit); [now apply IH|reflexivity].
Qed.

(** [int] refuses the empty text and every text that holds a character
    other than a digit, an underscore, a sign or white space. *)
Lemma int10_not_numeric (s : str) :
  s = [] \/
  (exists c, In c s /\ is_digit c = false /\ isspace c = false /\
             c <> "+"%char /\ c <> "-"%char /\ c <> "_"%char) ->
  exists msg, int10 s = Raise (ValueError msg).
Proof.
  intros [->|(c & Hin & Hd & Hs & Hplus & Hminus & Hu)]; [now eexists|].
  apply strip_In in Hin; [|assumption]. unfold int10.
  destruct (strip s) as [|c0 ds]; [elim Hin|].
  assert (Hds : c <> c0 -> literal_digits false ds = None).
  { intros Hne. destruct Hin as [->|Hin]; [congruence|].
    now apply (literal_digits_In c). }
  destruct (Ascii.eqb_spec c0 "-") as [->|_].
  { rewrite (Hds Hminus). now eexists. }
  destruct (Ascii.eqb_spec c0 "+") as [->|_].
  { rewrite (Hds Hplus). now eexists. }
  rewrite (literal_digits_In c false (c0 :: ds)) by assumption. now eexists.
Qed.

(** X5: a length prefix that is not a number (it is empty, or holds a
    character other than a digit, an underscore, a sign or white space) is
    read up to the colon and then fails in [int]: the generator ends with
    [ValueError], not with the framing error. *)
Theorem non_numeric_prefix_raises_ValueError (ds rest : str) :
  Forall not_colon ds ->
  (length ds <= 11)%nat ->
  hd_error ds <> Some "0"%char ->
  ds = [] \/
  (exists c, In c ds /\ is_digit c = false /\ isspace c = false /\
             c <> "+"%char /\ c <> "-"%char /\ c <> "_"%char) ->
  exists msg,
    netstring_reader (ds ++ ":"%char :: rest) = Some ([], Raised (ValueError msg)).
Proof.
  intros Hc Hlen Hz Hbad. rewrite netstring_reader_step. unfold next_frame.
  rewrite read_length_prefix; [|assumption|cbn; lia|].
  - destruct (int10_not_numeric ds Hbad) as [msg Hmsg].
    cbn [app]. rewrite Hmsg. now exists msg.
  - right. destruct ds as [|c ds]; [exact I|].
    destruct (Ascii.eqb_spec c "0") as [->|_]; [now elim Hz|reflexivity].
Qed.

Lemma non_numeric_prefix_raises_ValueError_witness :
  (exists msg,
      netstring_reader (lit "abc" ++ ":"%char :: lit "xyz,")
      = Some ([], Raised (ValueError msg))) /\
  (exists msg,
      netstring_reader ([] ++ ":"%char :: lit "xyz,")
      = Some ([], Raised (ValueError msg))).
Proof.
  split.
  - apply (non_numeric_prefix_raises_ValueError (lit "abc") (lit "xyz,")).
    + repeat constructor.
    + vm_compute. lia.
    + vm_compute. discriminate.
    + right. exists "a"%char. vm_compute. repeat split; auto; discriminate.
  - apply (non_numeric_prefix_raises_ValueError [] (lit "xyz,")).
    + constructor.
    + vm_compute. lia.
    + vm_compute. discriminate.
    + now left.
Defined.

(** ** What a yielded payload says about the stream *)

Lemma read_length_inv (n fp n' fp1 : str) :
  read_length n fp = LenBreak n' fp1 ->
  exists ds, n' = n ++ ds /\ fp = ds ++ ":"%char :: fp1 /\
             Forall not_colon ds /\
             ((length n <= 11)%nat -> (length n' <= 11)%nat).
Proof.
  revert n; induction fp as [|c fp IH]; intros n H; cbn [read_length] in H;
    [discriminate|].
  destruct (Ascii.eqb_spec c ":") as [->|Hc].
  { inversion H; subst. exists []. rewrite app_nil_r. repeat split; auto. }
  destruct (Nat.ltb_spec 10 (length n)) as [Hn|Hn]; [discriminate|].
  assert (Hnc : not_colon c)
    by (unfold not_colon; now destruct (Ascii.eqb_spec c ":")).
  destruct (Ascii.eqb c "0" && bool_decide (n = [])) eqn:Ez.
  - apply andb_prop in Ez as [_ En]. apply bool_decide_eq_true_1 in En. subst n.
    destruct fp as [|c' fp']; [discriminate|].
    destruct (Ascii.eqb_spec c' ":") as [->|_]; [|discriminate].
    inversion H; subst. exists [c]. repeat split; auto. cbn. lia.
  - apply IH in H as (ds & -> & -> & Hds & Hlen).
    exists (c :: ds). rewrite <- app_assoc. repeat split; auto.
    rewrite !length_app in *. cbn [length] in *. lia.
Qed.

Lemma read_upto_length (n : Z) (fp data rest : str) :
  read_upto n fp = (data, rest) -> Z.of_nat (length data) <= Z.max n 0.
Proof.
  revert n data rest; induction fp as [|c fp IH]; intros n data rest H;
    cbn [read_upto] in H.
  - inversion H; subst. cbn. lia.
  - destruct (Z.leb_spec n 0) as [Hn|Hn]; [inversion H; subst; cbn; lia|].
    destruct (read_upto (n - 1) fp) as [d r] eqn:E.
    inversion H; subst. apply IH in E. cbn [length]. lia.
Qed.

Lemma next_frame_yield_frame (fp payload rest : str) :
  next_frame fp = FrameYield payload rest ->
  exists n,
    fp = n ++ ":"%char :: payload ++ ","%char :: rest /\
    int10 n = Ok (Z.of_nat (length payload)) /\
    Forall not_colon n /\ (1 <= length n <= 11)%nat.
Proof.
  unfold next_frame. intros H.
  destruct (read_length [] fp) as [| |n fp1] eqn:Hn; try discriminate.
  apply read_length_inv in Hn as (ds & Heq & -> & Hds & Hlen).
  cbn [app] in Heq. subst ds.
  destruct (int10 n) as [z|] eqn:Hz; [|discriminate].
  destruct (read z fp1) as [data fp2] eqn:Hr.
  destruct (Z.ltb_spec (Z.of_nat (length data)) z) as [|Hge]; [discriminate|].
  destruct fp2 as [|c fp3]; [discriminate|].
  destruct (Ascii.eqb_spec c ",") as [->|_]; [|discriminate].
  inversion H; subst data fp3. clear H.
  pose proof (read_split _ _ _ _ Hr) as ->.
  unfold read in Hr. destruct (Z.ltb_spec z 0) as [Hneg|Hpos]; [discriminate|].
  apply read_upto_length in Hr.
  assert (z = Z.of_nat (length payload)) as -> by lia.
  exists n. repeat split; auto.
  - destruct n; [discriminate Hz|cbn; lia].
  - apply Hlen. cbn. lia.
Qed.

(** X6: the generator yields no payload that is not in the stream.  When a
    turn yields [payload] and stays on [rest], the stream read was a prefix
    of at most eleven characters without a colon, whose value as an [int] is
    the length of the payload, then [':'], the payload, [','] and [rest]. *)
Theorem next_frame_yield_inv (fp payload rest : str) :
  next_frame fp = FrameYield payload rest ->
  exists n,
    fp = n ++ ":"%char :: payload ++ ","%char :: rest /\
    int10 n = Ok (Z.of_nat (length payload)) /\
    Forall not_colon n /\ (1 <= length n <= 11)%nat.
Proof. apply next_frame_yield_frame. Qed.

Lemma next_frame_yield_inv_witness :
  exists n,
    lit "3:abc,5:hello," = n ++ ":"%char :: lit "abc" ++ ","%char :: lit "5:hello," /\
    int10 n = Ok (Z.of_nat (length (lit "abc"))) /\
    Forall not_colon n /\ (1 <= length n <= 11)%nat.
Proof.
  apply (next_frame_yield_inv (lit "3:abc,5:hello,") (lit "abc") (lit "5:hello,")).
  vm_compute. reflexivity.
Defined.

Lemma reader_loop_consumes (fuel : nat) (fp : str) (payloads : list str)
    (e : ending) :
  reader_loop fuel fp = Some (payloads, e) ->
  (list_sum (map (fun p : str => length p + 3)%nat payloads) <= length fp)%nat.
Proof.
  revert fp payloads; induction fuel as [|fuel IH]; intros fp payloads H;
    [discriminate|].
  rewrite reader_loop_S in H.
  destruct (next_frame fp) as [| |payload fp'] eqn:E.
  - inversion H; subst. cbn. lia.
  - inversion H; subst. cbn. lia.
  - destruct (reader_loop fuel fp') as [[ps e']|] eqn:Hl; [|discriminate].
    inversion H; subst. apply IH in Hl.
    apply next_frame_yield_frame in E as (n & -> & _ & _ & Hn).
    cbn [map list_sum fold_right]. unfold list_sum in Hl.
    rewrite length_app. cbn [length]. rewrite length_app. cbn [length]. lia.
Qed.

(** X7: every payload the generator yields has cost the stream at least
    its own length and three more bytes (a digit, the colon, the comma): the
    payloads yielded never add up to more than the stream. *)
Theorem netstring_reader_consumes (fp : str) (payloads : list str) (e : ending) :
  netstring_reader fp = Some (payloads, e) ->
  (list_sum (map (fun p : str => length p + 3)%nat payloads) <= length fp)%nat.
Proof. apply reader_loop_consumes. Qed.

Lemma netstring_reader_consumes_witness :
  (list_sum (map (fun p : str => length p + 3)%nat [lit "abc"; lit "hello"])
   <= length (lit "3:abc,5:hello,"))%nat.
Proof.
  apply (netstring_reader_consumes (lit "3:abc,5:hello,")
           [lit "abc"; lit "hello"] Returned).
  vm_compute. reflexivity.
Defined.

Lemma strip_no_space (s : str) :
  lstrip s = s -> lstrip (rev s) = rev s -> strip s = s.
Proof. intros H1 H2. unfold strip. rewrite H1, H2. apply rev_involutive. Qed.

Lemma int10_plus_digits (u : Decimal.uint) :
  u <> Nil ->
  int10 ("+"%char :: chars_of_uint u) = Ok (Z.of_N (N.of_uint u)).
Proof.
  intros Hu. unfold int10.
  pose proof (chars_of_uint_digits u) as Hd.
  assert (Hne : chars_of_uint u <> []) by (destruct u; cbn; congruence).
  rewrite strip_no_space.
  - change (Ascii.eqb "+" "-") with false. change (Ascii.eqb "+" "+") with true.
    cbv beta iota.
    rewrite literal_digits_digits by (assumption || now left).
    now rewrite uint_of_chars_of_uint.
  - reflexivity.
  - cbn [rev]. apply Forall_rev in Hd.
    destruct (rev (chars_of_uint u)) as [|c r] eqn:E.
    + apply (f_equal (@rev ascii)) in E. rewrite rev_involutive in E.
      now elim Hne.
    + cbn [app lstrip]. inversion Hd; subst. now rewrite digit_not_space.
Qed.

(** X8: the reader takes more than the canonical prefix: a length written
    with a plus sign before its digits is read as that length, and the frame
    is yielded like any other. *)
Theorem plus_signed_prefix_is_accepted (payload rest : str) :
  Z.of_nat (length payload) < 10 ^ 10 ->
  next_frame ("+"%char :: Handler.netstring payload ++ rest)
  = FrameYield payload rest.
Proof.
  intros Hlen. rewrite netstring_unfold. unfold next_frame.
  rewrite <- app_assoc. cbn [app]. rewrite <- app_assoc. cbn [app].
  set (z := Z.of_nat (length payload)) in *.
  assert (Hz : exists u, u <> Nil /\ str_of_int z = chars_of_uint u /\
                         Z.of_N (N.of_uint u) = z /\ (nb_digits u <= 10)%nat).
  { destruct z as [|p|p] eqn:Ez; [| |lia].
    - exists (D0 Nil). repeat split; [discriminate|cbn; lia].
    - exists (Pos.to_uint p). split; [apply DecimalPos.Unsigned.to_uint_nonnil|].
      split; [reflexivity|]. split.
      + change (N.of_uint (Pos.to_uint p)) with (Pos.of_uint (Pos.to_uint p)).
        now rewrite DecimalPos.Unsigned.of_to.
      + destruct (pos_to_uint_head p) as (c & l & Hc & _ & Hp).
        rewrite <- length_chars_of_uint, Hc. cbn [length].
        rewrite length_chars_of_uint.
        assert (nb_digits l < 10)%nat; [|lia].
        apply Nat2Z.inj_lt. apply (Z.pow_lt_mono_r_iff 10); lia. }
  destruct Hz as (u & Hu & -> & Hval & Hdig).
  change ("+"%char :: chars_of_uint u ++ ":"%char :: payload ++ ","%char :: rest)
    with (("+"%char :: chars_of_uint u) ++ ":"%char :: payload ++ ","%char :: rest).
  rewrite read_length_prefix.
  - cbn [app]. rewrite int10_plus_digits, Hval by assumption.
    unfold z. rewrite read_exact, Z.ltb_irrefl. reflexivity.
  - constructor; [reflexivity|]. apply digits_not_colon, chars_of_uint_digits.
  - cbn [length]. rewrite length_chars_of_uint. lia.
  - right. reflexivity.
Qed.

Lemma plus_signed_prefix_is_accepted_witness :
  next_frame ("+"%char :: Handler.netstring (lit "abc") ++ lit "rest")
  = FrameYield (lit "abc") (lit "rest").
Proof.
  apply (plus_signed_prefix_is_accepted (lit "abc") (lit "rest")).
  vm_compute. reflexivity.
Defined.

(** * Further properties of the handler *)

Lemma find_sep_Some (sep : ascii) (s : str) :
  sep ∈ s -> exists before after, find_sep sep s = Some (before, after).
Proof.
  induction s as [|c s IH]; intros Hin; [now apply elem_of_nil in Hin|].
  cbn [find_sep]. destruct (Ascii.eqb_spec c sep) as [->|Hne]; [eauto|].
  apply elem_of_cons in Hin as [->|Hin]; [congruence|].
  destruct (IH Hin) as (b & a & ->). eauto.
Qed.

(** What the loop body writes is one frame, appended to what was written,
    and its payload does not depend on what was written before. *)
Lemma handle_request_Ok (self : server) (wfile request w : str) :
  Handler.handle_request self wfile request = Ok w ->
  exists resp,
    is_response resp /\ w = wfile ++ Handler.netstring resp /\
    forall wfile',
      Handler.handle_request self wfile' request
      = Ok (wfile' ++ Handler.netstring resp).
Proof.
  unfold Handler.handle_request, Handler.write_netstring.
  destruct (unpack2 (split1 " " request)) as [[table_name arg]|e];
    cbn [bind]; [|discriminate].
  destruct (Handler.run_query self table_name arg) as [[row|]|exc].
  - destruct (index row 0) as [first|]; cbn [bind]; [|discriminate].
    destruct first as [v|ty]; cbn [str_add bind]; [|discriminate].
    intros H; inversion H; subst. exists (lit "OK " ++ v).
    repeat split; auto. right; left; eauto.
  - intros H; inversion H; subst. exists (lit "NOTFOUND ").
    repeat split; auto. now left.
  - intros H; inversion H; subst. exists (lit "PERM " ++ str_of_exn exc).
    repeat split; auto. right; right; eauto.
Qed.

Lemma handle_request_Raise (self : server) (wfile wfile' request : str)
    (e : exn) :
  Handler.handle_request self wfile request = Raise e ->
  Handler.handle_request self wfile' request = Raise e.
Proof.
  unfold Handler.handle_request, Handler.write_netstring.
  destruct (unpack2 (split1 " " request)) as [[table_name arg]|e'];
    cbn [bind]; [|auto].
  destruct (Handler.run_query self table_name arg) as [[row|]|exc];
    try discriminate.
  destruct (index row 0) as [first|]; cbn [bind]; [|auto].
  destruct first as [v|ty]; cbn [str_add bind]; [discriminate|auto].
Qed.

Lemma handle_loop_S (fuel : nat) (self : server) (rfile wfile : str) :
  Handler.handle_loop (S fuel) self rfile wfile =
  match next_frame rfile with
  | FrameReturn => Some (wfile, Returned)
  | FrameRaise e => Some (wfile, Raised e)
  | FrameYield request rfile' =>
      match Handler.handle_request self wfile request with
      | Raise e => Some (wfile, Raised e)
      | Ok wfile' => Handler.handle_loop fuel self rfile' wfile'
      end
  end.
Proof. reflexivity. Qed.

(** What [handle] writes comes after what was written before. *)
Lemma handle_loop_wfile (fuel : nat) (self : server) (rfile wfile : str) :
  Handler.handle_loop fuel self rfile wfile =
  match Handler.handle_loop fuel self rfile [] with
  | Some (out, e) => Some (wfile ++ out, e)
  | None => None
  end.
Proof.
  revert rfile wfile; induction fuel as [|fuel IH]; intros rfile wfile;
    [reflexivity|].
  rewrite !handle_loop_S.
  destruct (next_frame rfile) as [| |request rfile'];
    [now rewrite app_nil_r..|].
  destruct (Handler.handle_request self [] request) as [w|e] eqn:E.
  - apply handle_request_Ok in E as (resp & _ & -> & Hw).
    rewrite Hw. rewrite (IH rfile' (wfile ++ _)), (IH rfile' ([] ++ _)).
    destruct (Handler.handle_loop fuel self rfile' []) as [[out e]|];
      [|reflexivity].
    now rewrite app_assoc.
  - rewrite (handle_request_Raise self [] wfile request e E).
    now rewrite app_nil_r.
Qed.

Lemma handle_loop_mono (fuel fuel' : nat) (self : server) (rfile wfile : str) r :
  (fuel <= fuel')%nat ->
  Handler.handle_loop fuel self rfile wfile = Some r ->
  Handler.handle_loop fuel' self rfile wfile = Some r.
Proof.
  revert fuel' rfile wfile; induction fuel as [|fuel IH];
    intros fuel' rfile wfile Hle H; [discriminate|].
  destruct fuel' as [|fuel']; [lia|]. rewrite handle_loop_S in *.
  destruct (next_frame rfile) as [| |request rfile']; try assumption.
  destruct (Handler.handle_request self wfile request); [|assumption].
  apply IH; [lia|assumption].
Qed.

Lemma handle_loop_complete (fuel : nat) (self : server) (rfile : str) r :
  Handler.handle_loop fuel self rfile [] = Some r ->
  Handler.handle self rfile = Some r.
Proof.
  intros H. destruct (handle_total self rfile) as (out & e & Ht).
  rewrite Ht. unfold Handler.handle in Ht.
  destruct (Nat.le_ge_cases fuel (S (length rfile))) as [Hle|Hle].
  - rewrite (handle_loop_mono _ _ _ _ _ _ Hle H) in Ht. now inversion Ht.
  - rewrite (handle_loop_mono _ _ _ _ _ _ Hle Ht) in H. now inversion H.
Qed.

Lemma handle_step (self : server) (rfile : str) :
  Handler.handle self rfile =
  match next_frame rfile with
  | FrameReturn => Some ([], Returned)
  | FrameRaise e => Some ([], Raised e)
  | FrameYield request rfile' =>
      match Handler.handle_request self [] request with
      | Raise e => Some ([], Raised e)
      | Ok w =>
          match Handler.handle self rfile' with
          | Some (out, e) => Some (w ++ out, e)
          | None => None
          end
      end
  end.
Proof.
  destruct (next_frame rfile) as [| |request rfile'] eqn:E;
    [unfold Handler.handle; now rewrite handle_loop_S, E..|].
  destruct (Handler.handle_request self [] request) as [w|e] eqn:Er;
    [|unfold Handler.handle; now rewrite handle_loop_S, E, Er].
  destruct (handle_total self rfile') as (out & e & Ht). rewrite Ht.
  apply (handle_loop_complete (S (S (length rfile')))).
  rewrite handle_loop_S, E, Er, handle_loop_wfile.
  unfold Handler.handle in Ht. now rewrite Ht.
Qed.

(** X9: sequential isolation.  On a connection that starts with the frame
    of [request], [handle] answers that request and then behaves on the rest
    of the stream as on a connection of its own, whatever the answer was;
    only an exception of the loop body ends it. *)
Theorem handle_frame_then_rest (self : server) (request rfile : str) :
  Z.of_nat (length request) < 10 ^ 11 ->
  Handler.handle self (Handler.netstring request ++ rfile) =
  match Handler.handle_request self [] request with
  | Raise e => Some ([], Raised e)
  | Ok w =>
      match Handler.handle self rfile with
      | Some (out, e) => Some (w ++ out, e)
      | None => None
      end
  end.
Proof.
  intros Hlen. rewrite handle_step, next_frame_netstring by assumption.
  reflexivity.
Qed.

Lemma handle_frame_then_rest_witness :
  Handler.handle sample_server
    (Handler.netstring (lit "nosuch key") ++ lit "11:aliases foo,")
  = Some (lit "11:PERM nosuch," ++ lit "9:OK value1,", Returned).
Proof.
  rewrite (handle_frame_then_rest sample_server (lit "nosuch key")
             (lit "11:aliases foo,")).
  - vm_compute. reflexivity.
  - vm_compute. reflexivity.
Defined.

Lemma handle_loop_responses (fuel : nat) (self : server) (rfile out : str)
    (requests : list str) (e0 e : ending) :
  reader_loop fuel rfile = Some (requests, e0) ->
  Handler.handle_loop fuel self rfile [] = Some (out, e) ->
  exists responses,
    out = concat (map Handler.netstring responses) /\
    Forall2 (fun request response =>
               is_response response /\
               Handler.handle_request self [] request
               = Ok (Handler.netstring response))
      (firstn (length responses) requests) responses /\
    ((length responses = length requests /\ e = e0) \/
     (exists request err,
         nth_error requests (length responses) = Some request /\
         Handler.handle_request self [] request = Raise err /\
         e = Raised err)).
Proof.
  revert rfile out requests; induction fuel as [|fuel IH];
    intros rfile out requests Hr Hh; [discriminate|].
  rewrite reader_loop_S in Hr. rewrite handle_loop_S in Hh.
  destruct (next_frame rfile) as [|err|request rfile'].
  - inversion Hr; inversion Hh; subst. exists []. cbn. repeat split; auto.
  - inversion Hr; inversion Hh; subst. exists []. cbn. repeat split; auto.
  - destruct (reader_loop fuel rfile') as [[reqs e1]|] eqn:Hl; [|discriminate].
    inversion Hr; subst requests e1. clear Hr.
    destruct (Handler.handle_request self [] request) as [w|err] eqn:Hq.
    + pose proof Hq as Hq'.
      apply handle_request_Ok in Hq' as (resp & Hresp & -> & _).
      rewrite handle_loop_wfile in Hh.
      destruct (Handler.handle_loop fuel self rfile' []) as [[out' e']|] eqn:Hl';
        [|discriminate].
      inversion Hh; subst out e'. clear Hh.
      destruct (IH rfile' out' reqs Hl Hl') as (resps & -> & Hall & Hend).
      exists (resp :: resps). cbn [map concat length firstn nth_error].
      split; [reflexivity|]. split; [constructor; auto|].
      destruct Hend as [[Hlen ->]|Hend]; [left; split; [lia|reflexivity]|].
      now right.
    + inversion Hh; subst. exists []. cbn. repeat split; [constructor|].
      right. eauto.
Qed.

(** X10: [handle] writes nothing but responses.  What it has written when
    it ends is the frames of response payloads ([NOTFOUND ], [OK ...],
    [PERM ...]), one for each request the generator yields, in order, each
    the answer to its request; it ends as the generator ends, unless the
    loop body raises on a request, which is then the first one left without
    a response. *)
Theorem handle_writes_responses (self : server) (rfile out : str)
    (requests : list str) (e0 e : ending) :
  netstring_reader rfile = Some (requests, e0) ->
  Handler.handle self rfile = Some (out, e) ->
  exists responses,
    out = concat (map Handler.netstring responses) /\
    Forall2 (fun request response =>
               is_response response /\
               Handler.handle_request self [] request
               = Ok (Handler.netstring response))
      (firstn (length responses) requests) responses /\
    ((length responses = length requests /\ e = e0) \/
     (exists request err,
         nth_error requests (length responses) = Some request /\
         Handler.handle_request self [] request = Raise err /\
         e = Raised err)).
Proof. apply handle_loop_responses. Qed.

Lemma handle_writes_responses_witness :
  exists responses,
    lit "9:OK value1," = concat (map Handler.netstring responses) /\
    Forall2 (fun request response =>
               is_response response /\
               Handler.handle_request sample_server [] request
               = Ok (Handler.netstring response))
      (firstn (length responses) [lit "aliases foo"; lit "justoneword"])
      responses /\
    ((length responses = length [lit "aliases foo"; lit "justoneword"] /\
      Raised (ValueError (lit "need more than 1 value to unpack"))
      = Raised MalformedNetstringError) \/
     (exists request err,
         nth_error [lit "aliases foo"; lit "justoneword"] (length responses)
         = Some request /\
         Handler.handle_request sample_server [] request = Raise err /\
         Raised (ValueError (lit "need more than 1 value to unpack"))
         = Raised err)).
Proof.
  apply (handle_writes_responses sample_server
           (lit "11:aliases foo,11:justoneword,0:x")).
  - vm_compute. reflexivity.
  - vm_compute. reflexivity.
Defined.

(** X11: every exception of [run_query] becomes a [PERM] response.  For a
    table of the registry, an exception of its transform, and an exception
    of the datastore on the transformed argument, are answered with the
    frame of ["PERM "] followed by the text of the exception; the loop body
    returns normally. *)
Theorem query_errors_are_PERM_responses (self : server)
    (wfile table_name arg : str) (table : table) :
  " "%char ∉ table_name ->
  tables self !! table_name = Some table ->
  (forall exc,
      transform table arg = Raise exc ->
      Handler.handle_request self wfile (table_name ++ " "%char :: arg)
      = Ok (wfile ++ Handler.netstring (lit "PERM " ++ str_of_exn exc))) /\
  (forall param exc,
      transform table arg = Ok param ->
      db_conn self (query table) param = Raise exc ->
      Handler.handle_request self wfile (table_name ++ " "%char :: arg)
      = Ok (wfile ++ Handler.netstring (lit "PERM " ++ str_of_exn exc))).
Proof.
  intros Hsp Htab.
  unfold Handler.handle_request, Handler.run_query, Handler._query_db.
  rewrite split_request by assumption. cbn [bind]. rewrite Htab.
  split; [intros exc ->; reflexivity|].
  intros param exc Ht Hd. rewrite Ht. cbn [bind]. now rewrite Hd.
Qed.

Lemma query_errors_are_PERM_responses_witness :
  Handler.handle_request locked_server [] (lit "domains postmaster")
  = Ok (lit "28:PERM list index out of range,") /\
  Handler.handle_request locked_server [] (lit "domains a@example.com")
  = Ok (lit "23:PERM database is locked,").
Proof.
  assert (Hsp : " "%char ∉ lit "domains")
    by (apply (bool_decide_unpack _); vm_compute; exact I).
  split.
  - refine (proj1 (query_errors_are_PERM_responses locked_server []
                     (lit "domains") (lit "postmaster") _ Hsp _)
                  (IndexError (lit "list index out of range")) _);
      vm_compute; reflexivity.
  - refine (proj2 (query_errors_are_PERM_responses locked_server []
                     (lit "domains") (lit "a@example.com") _ Hsp _)
                  (lit "example.com")
                  (CollaboratorError (lit "database is locked")) _ _);
      vm_compute; reflexivity.
Defined.

Lemma handle_request_with_space (self : server) (wfile request : str) :
  text_rows self ->
  " "%char ∈ request ->
  exists response,
    is_response response /\
    Handler.handle_request self wfile request
    = Ok (wfile ++ Handler.netstring response).
Proof.
  intros Hrows Hsp.
  destruct (find_sep_Some _ _ Hsp) as (table_name & arg & Hsplit).
  destruct (Handler.handle_request self wfile request) as [w|e] eqn:E.
  - apply handle_request_Ok in E as (resp & Hresp & -> & _). eauto.
  - exfalso. revert E.
    unfold Handler.handle_request, split1. rewrite Hsplit. cbn [unpack2 bind].
    destruct (Handler.run_query self table_name arg) as [[row|]|exc] eqn:Hq;
      try discriminate.
    unfold Handler.run_query, Handler._query_db in Hq.
    destruct (tables self !! table_name) as [table|]; [|discriminate].
    destruct (transform table arg) as [param|]; cbn [bind] in Hq;
      [|discriminate].
    destruct (Hrows _ _ _ Hq) as (v & columns & ->). discriminate.
Qed.

(** X12: a request with a space is always answered.  On a datastore whose
    rows start with a text column, the loop body raises on no request that
    holds a space: it writes one response frame, whatever the table, the
    transform and the datastore do. *)
Theorem request_with_space_is_answered (self : server) (wfile request : str) :
  text_rows self ->
  " "%char ∈ request ->
  exists response,
    is_response response /\
    Handler.handle_request self wfile request
    = Ok (wfile ++ Handler.netstring response).
Proof. apply handle_request_with_space. Qed.

Lemma sample_server_text_rows : text_rows sample_server.
Proof.
  intros q param row. cbn [sample_server db_conn].
  destruct (bool_decide (param = lit "foo")); intros H; inversion H; eauto.
Qed.

Lemma request_with_space_is_answered_witness :
  exists response,
    is_response response /\
    Handler.handle_request sample_server [] (lit "no such table")
    = Ok ([] ++ Handler.netstring response).
Proof.
  apply (request_with_space_is_answered sample_server [] (lit "no such table")).
  - exact sample_server_text_rows.
  - apply (bool_decide_unpack _). vm_compute. exact I.
Defined.

(** X13: a connection whose requests all hold a space is served to its
    end.  On a datastore whose rows start with a text column, [handle]
    writes exactly one response frame for each request of the stream and
    ends as the generator ends: it returns at the end of the stream, and a
    framing error is the only exception that leaves it. *)
Theorem handle_serves_every_request (self : server) (rfile : str)
    (requests : list str) (e0 : ending) :
  netstring_reader rfile = Some (requests, e0) ->
  text_rows self ->
  Forall (fun request : str => " "%char ∈ request) requests ->
  exists responses,
    Handler.handle self rfile
    = Some (concat (map Handler.netstring responses), e0) /\
    length responses = length requests /\
    Forall is_response responses.
Proof.
  intros Hr Hrows Hsp.
  destruct (handle_total self rfile) as (out & e & Hh).
  destruct (handle_loop_responses _ self rfile out requests e0 e Hr Hh)
    as (responses & -> & Hall & Hend).
  exists responses.
  assert (Hresp : Forall is_response responses).
  { clear -Hall. induction Hall as [|? ? ? ? [H _] _ IH]; constructor; auto. }
  destruct Hend as [[Hlen ->]|(request & err & Hnth & Hraise & _)]; [auto|].
  exfalso. apply nth_error_In, list_elem_of_In in Hnth.
  rewrite Forall_forall in Hsp.
  destruct (handle_request_with_space self [] request Hrows (Hsp _ Hnth))
    as (response & _ & Hok).
  congruence.
Qed.

Lemma handle_serves_every_request_witness :
  exists responses,
    Handler.handle sample_server (lit "11:aliases foo,10:nosuch key,3:a b;")
    = Some (concat (map Handler.netstring responses),
            Raised MalformedNetstringError) /\
    length responses = length [lit "aliases foo"; lit "nosuch key"] /\
    Forall is_response responses.
Proof.
  apply (handle_serves_every_request sample_server
           (lit "11:aliases foo,10:nosuch key,3:a b;")
           [lit "aliases foo"; lit "nosuch key"]
           (Raised MalformedNetstringError)).
  - vm_compute. reflexivity.
  - exact sample_server_text_rows.
  - repeat constructor; apply (bool_decide_unpack _); vm_compute; exact I.
Defined.

(** * Further properties of the transforms *)

Lemma find_sep_inv (sep : ascii) (s before after : str) :
  find_sep sep s = Some (before, after) ->
  s = before ++ sep :: after /\ sep ∉ before.
Proof.
  revert before; induction s as [|c s IH]; intros before H; cbn [find_sep] in H;
    [discriminate|].
  destruct (Ascii.eqb_spec c sep) as [->|Hne].
  - inversion H; subst. split; [reflexivity|apply not_elem_of_nil].
  - destruct (find_sep sep s) as [[b a]|]; [|discriminate].
    inversion H; subst. destruct (IH b eq_refl) as [-> Hb].
    split; [reflexivity|]. apply not_elem_of_cons. split; [congruence|assumption].
Qed.

(** X14: the two address transforms cut the argument at its first ['@'].
    [local_part] never fails and its result holds no ['@']; [domain_part]
    fails exactly when the argument holds no ['@'], where [local_part]
    returns the argument whole; when it succeeds the two results, joined by
    ['@'], are the argument. *)
Theorem address_transforms (arg : str) :
  (exists local,
      local_part arg = Ok local /\ ("@"%char ∉ local) /\
      (forall domain, domain_part arg = Ok domain ->
                      arg = local ++ "@"%char :: domain)) /\
  (("@"%char ∉ arg) <->
   (domain_part arg = Raise (IndexError (lit "list index out of range")))) /\
  ("@"%char ∉ arg -> local_part arg = Ok arg).
Proof.
  unfold local_part, domain_part, split1.
  destruct (find_sep "@" arg) as [[local domain]|] eqn:E.
  - apply find_sep_inv in E as [-> Hl]. cbn [index nth_error].
    split; [exists local; repeat split; auto; intros d H; now inversion H|].
    assert (Hin : "@"%char ∈ local ++ "@"%char :: domain).
    { apply elem_of_app. right. apply elem_of_cons. now left. }
    split; [split; [intros Hn; now elim Hn|discriminate]|].
    intros Hn. now elim Hn.
  - cbn [index nth_error].
    assert (Hn : "@"%char ∉ arg).
    { intros Hin. apply find_sep_Some in Hin as (b & a & Hs). congruence. }
    split; [exists arg; repeat split; auto; discriminate|].
    split; [split; auto|auto].
Qed.

(** * The pattern of function references *)

(** ** Matching by derivatives is matching *)

Lemma nullable_Matches (r : regex) : nullable r = true <-> Matches r [].
Proof.
  split.
  - induction r; cbn [nullable]; intros H; try discriminate.
    + constructor.
    + apply andb_prop in H as [H1 H2].
      change (@nil ascii) with (@nil ascii ++ []). constructor; auto.
    + apply orb_prop in H as [H|H]; [apply MAltL|apply MAltR]; auto.
    + constructor.
  - intros H. remember [] as s eqn:Es.
    induction H; cbn [nullable]; try reflexivity; try discriminate.
    + apply app_eq_nil in Es as [-> ->]. now rewrite IHMatches1, IHMatches2.
    + now rewrite IHMatches.
    + rewrite IHMatches by assumption. apply orb_true_r.
Qed.

Lemma Matches_Star_cons (r : regex) (c : ascii) (s : str) :
  Matches (Star r) (c :: s) ->
  exists s1 s2, s = s1 ++ s2 /\ Matches r (c :: s1) /\ Matches (Star r) s2.
Proof.
  intros H. remember (Star r) as r' eqn:Er. remember (c :: s) as s' eqn:Es.
  revert s Es. induction H; intros s0 Es; try discriminate.
  inversion Er; subst r0. clear Er.
  destruct s1 as [|c1 s1].
  - cbn [app] in Es. now apply IHMatches2.
  - cbn [app] in Es. inversion Es; subst. eauto.
Qed.

Lemma Matches_Eps_inv (s : str) : Matches Eps s -> s = [].
Proof. intros H. now inversion H. Qed.

Lemma Matches_Class_inv (p : ascii -> bool) (s : str) :
  Matches (Class p) s -> exists c, s = [c] /\ p c = true.
Proof. intros H. inversion H; subst. eauto. Qed.

Lemma Matches_Seq_inv (r1 r2 : regex) (s : str) :
  Matches (Seq r1 r2) s ->
  exists s1 s2, s = s1 ++ s2 /\ Matches r1 s1 /\ Matches r2 s2.
Proof. intros H. inversion H; subst. eauto. Qed.

Lemma Matches_Alt_inv (r1 r2 : regex) (s : str) :
  Matches (Alt r1 r2) s -> Matches r1 s \/ Matches r2 s.
Proof. intros H. inversion H; subst; auto. Qed.

Lemma Matches_Seq_cons (r1 r2 : regex) (c : ascii) (s1 s2 : str) :
  Matches r1 (c :: s1) -> Matches r2 s2 -> Matches (Seq r1 r2) (c :: s1 ++ s2).
Proof. intros H1 H2. apply (MSeq r1 r2 (c :: s1) s2); assumption. Qed.

Lemma deriv_Matches (c : ascii) (r : regex) (s : str) :
  Matches (deriv c r) s <-> Matches r (c :: s).
Proof.
  revert s; induction r; intros s; cbn [deriv].
  - split; intros H; inversion H.
  - split; intros H; inversion H.
  - split; intros H.
    + destruct (p c) eqn:E; [|inversion H].
      apply Matches_Eps_inv in H as ->. now constructor.
    + apply Matches_Class_inv in H as (c' & Hs & Hp).
      inversion Hs; subst. rewrite Hp. constructor.
  - split; intros H.
    + assert (Hl : Matches (Seq (deriv c r1) r2) s -> Matches (Seq r1 r2) (c :: s)).
      { intros Hs. apply Matches_Seq_inv in Hs as (s1 & s2 & -> & Ha & Hb).
        apply Matches_Seq_cons; [now apply IHr1|assumption]. }
      destruct (nullable r1) eqn:En; [|auto].
      apply Matches_Alt_inv in H as [H|H]; [auto|].
      apply nullable_Matches in En. apply (MSeq r1 r2 [] (c :: s)); [assumption|].
      now apply IHr2.
    + apply Matches_Seq_inv in H as (s1 & s2 & Es & Ha & Hb).
      destruct s1 as [|c1 s1]; cbn [app] in Es.
      * subst s2. apply nullable_Matches in Ha. rewrite Ha.
        apply MAltR. now apply IHr2.
      * injection Es as Ec Es. subst c1 s.
        assert (Hs : Matches (Seq (deriv c r1) r2) (s1 ++ s2))
          by (constructor; [now apply IHr1|assumption]).
        destruct (nullable r1); [now apply MAltL|assumption].
  - split; intros H.
    + apply Matches_Alt_inv in H as [H|H];
        [apply MAltL; now apply IHr1|apply MAltR; now apply IHr2].
    + apply Matches_Alt_inv in H as [H|H];
        [apply MAltL; now apply IHr1|apply MAltR; now apply IHr2].
  - split; intros H.
    + apply Matches_Seq_inv in H as (s1 & s2 & -> & Ha & Hb).
      apply (MStarCons r (c :: s1) s2); [now apply IHr|assumption].
    + apply Matches_Star_cons in H as (s1 & s2 & -> & Ha & Hb).
      constructor; [now apply IHr|assumption].
Qed.

Lemma fullmatch_Matches (r : regex) (s : str) :
  fullmatch r s = true <-> Matches r s.
Proof.
  unfold fullmatch. revert r; induction s as [|c s IH]; intros r; cbn [fold_left].
  - apply nullable_Matches.
  - rewrite IH. apply deriv_Matches.
Qed.

(** ** The grammar of [FUNC_REF_PATTERN] *)

Lemma Matches_Star_Class (p : ascii -> bool) (s : str) :
  Matches (Star (Class p)) s <-> Forall (fun c => p c = true) s.
Proof.
  split.
  - intros H. remember (Star (Class p)) as r eqn:Er.
    induction H; try discriminate; [constructor|].
    inversion Er; subst r. clear Er.
    apply Matches_Class_inv in H as (c & -> & Hp).
    constructor; auto.
  - induction 1 as [|c s Hc _ IH]; [constructor|].
    apply (MStarCons _ [c] s); [now constructor|assumption].
Qed.

Lemma Matches_Star_concat (r : regex) (s : str) :
  Matches (Star r) s <-> exists ss, Forall (Matches r) ss /\ s = concat ss.
Proof.
  split.
  - intros H. remember (Star r) as r' eqn:Er.
    induction H; try discriminate; [now exists []|].
    inversion Er; subst r0. clear Er.
    destruct (IHMatches2 eq_refl) as (ss & Hss & ->).
    exists (s1 :: ss). split; [constructor; assumption|reflexivity].
  - intros (ss & Hss & ->). induction Hss; cbn [concat]; constructor; auto.
Qed.

Lemma Matches_segment (s : str) :
  Matches (Seq (Class ident_start) (Star (Class ident_char))) s <-> segment s.
Proof.
  split.
  - intros H. apply Matches_Seq_inv in H as (s1 & s2 & -> & H1 & H2).
    apply Matches_Class_inv in H1 as (c & -> & Hc).
    apply Matches_Star_Class in H2. now exists c, s2.
  - intros (c & cs & -> & Hc & Hcs).
    apply (MSeq _ _ [c] cs); [now constructor|now apply Matches_Star_Class].
Qed.

Lemma Matches_chr (a : ascii) (s : str) : Matches (chr a) s <-> s = [a].
Proof.
  unfold chr. split.
  - intros H. apply Matches_Class_inv in H as (c & -> & Hc).
    now apply Ascii.eqb_eq in Hc as ->.
  - intros ->. constructor. apply Ascii.eqb_refl.
Qed.

Lemma Matches_dotted_name (s : str) : Matches dotted_name s <-> dotted s.
Proof.
  unfold dotted_name, dotted. cbv zeta. split.
  - intros H. apply Matches_Seq_inv in H as (s1 & s2 & -> & H1 & H2).
    apply Matches_segment in H1. apply Matches_Star_concat in H2 as (ss & Hss & ->).
    exists s1. revert Hss. induction ss as [|x ss IH]; intros Hss.
    + exists []. repeat split; auto.
    + inversion Hss as [|? ? Hx Hss']; subst.
      destruct (IH Hss') as (segs & _ & Hsegs & Heq).
      apply app_inv_head in Heq.
      apply Matches_Seq_inv in Hx as (d & sg & -> & Hd & Hsg).
      apply Matches_chr in Hd as ->. apply Matches_segment in Hsg.
      exists (sg :: segs). repeat split; auto.
      cbn [map concat app]. now rewrite Heq.
  - intros (seg & segs & Hseg & Hsegs & ->).
    constructor; [now apply Matches_segment|].
    apply Matches_Star_concat. exists (map (cons "."%char) segs).
    split; [|reflexivity].
    induction Hsegs as [|sg segs Hsg _ IH]; cbn [map]; constructor; auto.
    apply (MSeq _ _ ["."%char] sg); [now apply Matches_chr|now apply Matches_segment].
Qed.

Lemma segment_chars (s : str) : segment s -> Forall name_char s.
Proof.
  intros (c & cs & -> & Hc & Hcs). constructor.
  - left. unfold ident_char. now rewrite Hc.
  - eapply Forall_impl; [exact Hcs|]. intros x Hx. now left.
Qed.

Lemma dotted_chars (s : str) : dotted s -> Forall name_char s.
Proof.
  intros (seg & segs & Hseg & Hsegs & ->).
  apply Forall_app. split; [now apply segment_chars|].
  induction Hsegs as [|sg segs Hsg _ IH]; cbn [map concat]; [constructor|].
  apply Forall_app. split; [|assumption].
  constructor; [now right|now apply segment_chars].
Qed.

Lemma name_char_not (c : ascii) :
  name_char c -> c <> ":"%char /\ c <> "010"%char.
Proof.
  intros [H| ->]; [|split; discriminate].
  split; intros ->; discriminate H.
Qed.

Lemma dotted_no_colon (s : str) : dotted s -> ":"%char ∉ s.
Proof.
  intros H Hin. apply dotted_chars in H. rewrite Forall_forall in H.
  now destruct (name_char_not _ (H _ Hin)).
Qed.

(** The groups of a name that has the shape of the pattern. *)
Lemma groups_spec (module object : str) (newline : bool) :
  dotted module -> dotted object ->
  groups (module ++ ":"%char :: object ++ (if newline then ["010"%char] else []))
  = (module, object).
Proof.
  intros Hm Ho. unfold groups.
  rewrite find_sep_app by now apply dotted_no_colon.
  destruct newline.
  - rewrite rev_unit. change (Ascii.eqb "010" "010") with true. cbv iota.
    now rewrite rev_involutive.
  - rewrite app_nil_r. destruct (rev object) as [|c tser] eqn:E; [reflexivity|].
    assert (Hin : c ∈ object).
    { apply list_elem_of_In, in_rev. rewrite E. now left. }
    apply dotted_chars in Ho. rewrite Forall_forall in Ho.
    destruct (name_char_not _ (Ho _ Hin)) as [_ Hnl].
    now destruct (Ascii.eqb_spec c "010").
Qed.

Lemma FUNC_REF_PATTERN_spec (name : str) :
  fullmatch FUNC_REF_PATTERN name = true <->
  exists (module object : str) (newline : bool),
    dotted module /\ dotted object /\
    name = module ++ ":"%char :: object ++ (if newline then ["010"%char] else []).
Proof.
  rewrite fullmatch_Matches. unfold FUNC_REF_PATTERN. split.
  - intros H. apply Matches_Seq_inv in H as (m & s & -> & Hm & H).
    apply Matches_Seq_inv in H as (k & s' & -> & Hk & H).
    apply Matches_Seq_inv in H as (o & nl & -> & Ho & Hnl).
    apply Matches_chr in Hk as ->.
    apply Matches_dotted_name in Hm, Ho.
    apply Matches_Alt_inv in Hnl as [Hnl|Hnl].
    + apply Matches_Eps_inv in Hnl as ->. now exists m, o, false.
    + apply Matches_chr in Hnl as ->. now exists m, o, true.
  - intros (m & o & nl & Hm & Ho & ->).
    constructor; [now apply Matches_dotted_name|].
    apply (MSeq _ _ [":"%char]); [now apply Matches_chr|].
    constructor; [now apply Matches_dotted_name|].
    destruct nl; [apply MAltR; now apply Matches_chr|apply MAltL; constructor].
Qed.

Lemma match_accepts (module object : str) :
  dotted module -> dotted object ->
  match_ (module ++ ":"%char :: object) = Ok (module, object).
Proof.
  intros Hm Ho. unfold match_.
  pose proof (groups_spec module object false Hm Ho) as Hg.
  assert (Hf : fullmatch FUNC_REF_PATTERN
                 (module ++ ":"%char :: object ++ []) = true)
    by (apply FUNC_REF_PATTERN_spec; now exists module, object, false).
  cbv iota in Hg. rewrite app_nil_r in Hg, Hf. now rewrite Hf, Hg.
Qed.

(** X15: what [match] accepts and what it returns.  [match] returns
    [(module, object)] exactly for the names [module:object], or
    [module:object] followed by one newline, in which [module] and [object]
    are dotted names (segments of letters, digits and underscores that do
    not start with a digit, joined by dots); for every other name it raises
    [ValueError] with the name in its text. *)
Theorem match_spec (name module object : str) :
  (match_ name = Ok (module, object) <->
   dotted module /\ dotted object /\
   (name = module ++ ":"%char :: object \/
    name = module ++ ":"%char :: object ++ ["010"%char])) /\
  ((exists m o, match_ name = Ok (m, o)) \/
   match_ name
   = Raise (ValueError (lit "Malformed callable '" ++ name ++ lit "'"))).
Proof.
  split; [split|].
  - unfold match_. destruct (fullmatch FUNC_REF_PATTERN name) eqn:E;
      [|discriminate].
    apply FUNC_REF_PATTERN_spec in E as (m & o & nl & Hm & Ho & ->).
    rewrite groups_spec by assumption. intros H; inversion H; subst.
    repeat split; auto. destruct nl; [now right|left; now rewrite app_nil_r].
  - intros (Hm & Ho & Hname). unfold match_.
    assert (Hnl : exists nl : bool,
               name = module ++ ":"%char :: object
                        ++ (if nl then ["010"%char] else [])).
    { destruct Hname as [->| ->]; [exists false; now rewrite app_nil_r|now exists true]. }
    destruct Hnl as (nl & ->).
    rewrite (proj2 (FUNC_REF_PATTERN_spec _)) by (now exists module, object, nl).
    now rewrite groups_spec.
  - unfold match_.
    destruct (fullmatch FUNC_REF_PATTERN name); [|now right].
    destruct (groups name) as [m o]. left. eauto.
Qed.

(** * Further properties of the table registry *)

Lemma startswith_spec (prefix s : str) :
  startswith prefix s = true <-> exists rest, s = prefix ++ rest.
Proof.
  revert s; induction prefix as [|p prefix IH]; intros s; cbn [startswith].
  - split; [intros _; now exists s|reflexivity].
  - destruct s as [|c s]; [split; [discriminate|intros (r & H); discriminate H]|].
    rewrite andb_true_iff, Ascii.eqb_eq, IH. split.
    + intros (-> & r & ->). now exists r.
    + intros (r & H). inversion H; subst. eauto.
Qed.

(** The table name of a table section is what follows ["table:"]. *)
Lemma table_section_name (section : str) :
  startswith (lit "table:") section = true ->
  exists name,
    section = lit "table:" ++ name /\
    unpack2 (split1 ":" section) = Ok (lit "table", name).
Proof.
  intros H. apply startswith_spec in H as (name & ->). exists name.
  split; [reflexivity|]. unfold split1.
  change (lit "table:" ++ name) with (lit "table" ++ ":"%char :: name).
  rewrite find_sep_app; [reflexivity|].
  apply (bool_decide_unpack _). vm_compute. exact I.
Qed.

Lemma get_Ok (cp : RawConfigParser) (section option v : str) :
  get cp section option = Ok v <->
  section ∈ sections cp /\ option_value cp section option = Some v.
Proof.
  unfold get, has_section. destruct (decide (section ∈ sections cp)) as [Hin|Hin].
  - rewrite bool_decide_eq_true_2 by assumption.
    destruct (option_value cp section option); split;
      [intros H; inversion H; auto|intros [_ H]; now inversion H
      |discriminate|intros [_ H]; discriminate H].
  - rewrite bool_decide_eq_false_2 by assumption.
    split; [discriminate|intros [H _]; now elim Hin].
Qed.

Lemma has_option_true (cp : RawConfigParser) (section option : str) :
  has_option cp section option = true <->
  section ∈ sections cp /\ is_Some (option_value cp section option).
Proof.
  unfold has_option, has_section. rewrite andb_true_iff, bool_decide_eq_true.
  destruct (option_value cp section option); split; intros [H1 H2];
    split; auto; try discriminate.
  now destruct H2.
Qed.

Lemma transform_name_of_Ok (cp : RawConfigParser) (section tn : str) :
  section ∈ sections cp ->
  transform_name_of cp section = Ok tn ->
  tn = default (lit "all") (option_value cp section (lit "transform")).
Proof.
  intros Hin. unfold transform_name_of, get, has_section.
  rewrite bool_decide_eq_true_2 by assumption.
  destruct (option_value cp section (lit "transform")); intros H;
    now inversion H.
Qed.

Section registry.

Variable resolve : str -> str -> result (str -> result str).
Variable cp : RawConfigParser.

Lemma parse_sections_sound (todo : list str) (tables final : gmap str table)
    (name : str) (t : table) :
  (forall section, section ∈ todo -> section ∈ sections cp) ->
  parse_sections resolve cp todo tables = Ok final ->
  final !! name = Some t ->
  tables !! name = Some t \/ entry_of resolve cp name t.
Proof.
  revert tables; induction todo as [|section todo IH]; intros tables Hsub H Hl;
    cbn [parse_sections] in H.
  - inversion H; subst. now left.
  - assert (Hsub' : forall s, s ∈ todo -> s ∈ sections cp)
      by (intros s Hs; apply Hsub; now apply elem_of_cons; right).
    assert (Hsec : section ∈ sections cp)
      by (apply Hsub; apply elem_of_cons; now left).
    destruct (startswith (lit "table:") section) eqn:Est; [|eauto].
    destruct (table_section_name section Est) as (n & -> & Hu).
    rewrite Hu in H. cbn [bind] in H.
    destruct (has_option cp (lit "table:" ++ n) (lit "query")) eqn:Eq;
      cbn [negb] in H; [|eauto].
    destruct (transform_name_of cp (lit "table:" ++ n)) as [tn|] eqn:Etn;
      cbn [bind] in H; [|discriminate].
    destruct (transform_of resolve tn) as [tr|] eqn:Etr;
      cbn [bind] in H; [|discriminate].
    destruct (get cp (lit "table:" ++ n) (lit "query")) as [q|] eqn:Eg;
      cbn [bind] in H; [|discriminate].
    destruct (IH _ Hsub' H Hl) as [Hins|Hent]; [|now right].
    destruct (decide (n = name)) as [->|Hne].
    + rewrite lookup_insert_eq in Hins. inversion Hins; subst t. right.
      apply get_Ok in Eg as [_ Eg].
      apply transform_name_of_Ok in Etn; [|assumption]. subst tn.
      repeat split; assumption.
    + rewrite lookup_insert_ne in Hins by assumption. now left.
Qed.

Lemma parse_sections_keeps (todo : list str) (tables final : gmap str table)
    (name : str) :
  parse_sections resolve cp todo tables = Ok final ->
  is_Some (tables !! name) -> is_Some (final !! name).
Proof.
  revert tables; induction todo as [|section todo IH]; intros tables H Hl;
    cbn [parse_sections] in H.
  - now inversion H; subst.
  - destruct (startswith (lit "table:") section) eqn:Est; [|eauto].
    destruct (unpack2 (split1 ":" section)) as [[? n]|]; cbn [bind] in H;
      [|discriminate].
    destruct (negb (has_option cp section (lit "query"))); [eauto|].
    destruct (transform_name_of cp section) as [tn|]; cbn [bind] in H;
      [|discriminate].
    destruct (transform_of resolve tn) as [tr|]; cbn [bind] in H;
      [|discriminate].
    destruct (get cp section (lit "query")) as [q|]; cbn [bind] in H;
      [|discriminate].
    apply (IH _ H). apply lookup_insert_is_Some'. now right.
Qed.

Lemma parse_sections_complete (todo : list str) (tables final : gmap str table)
    (name : str) :
  parse_sections resolve cp todo tables = Ok final ->
  lit "table:" ++ name ∈ todo ->
  has_option cp (lit "table:" ++ name) (lit "query") = true ->
  is_Some (final !! name).
Proof.
  revert tables; induction todo as [|section todo IH]; intros tables H Hin Hq;
    [now apply elem_of_nil in Hin|].
  cbn [parse_sections] in H.
  destruct (decide (section = lit "table:" ++ name)) as [->|Hne].
  - assert (Est : startswith (lit "table:") (lit "table:" ++ name) = true)
      by (apply startswith_spec; eauto).
    rewrite Est in H.
    destruct (table_section_name _ Est) as (n & Hn & Hu).
    apply app_inv_head in Hn. subst n. rewrite Hu, Hq in H.
    cbn [bind negb] in H.
    destruct (transform_name_of cp (lit "table:" ++ name)) as [tn|];
      cbn [bind] in H; [|discriminate].
    destruct (transform_of resolve tn) as [tr|]; cbn [bind] in H;
      [|discriminate].
    destruct (get cp (lit "table:" ++ name) (lit "query")) as [q|];
      cbn [bind] in H; [|discriminate].
    apply (parse_sections_keeps _ _ _ _ H).
    rewrite lookup_insert_eq. eauto.
  - apply elem_of_cons in Hin as [Heq|Hin]; [congruence|].
    destruct (startswith (lit "table:") section); [|eauto].
    destruct (unpack2 (split1 ":" section)) as [[? n]|]; cbn [bind] in H;
      [|discriminate].
    destruct (negb (has_option cp section (lit "query"))); [eauto|].
    destruct (transform_name_of cp section) as [tn|]; cbn [bind] in H;
      [|discriminate].
    destruct (transform_of resolve tn) as [tr|]; cbn [bind] in H;
      [|discriminate].
    destruct (get cp section (lit "query")) as [q|]; cbn [bind] in H;
      [|discriminate].
    eauto.
Qed.

(** X16: what a registry that has been built holds.  When [parse_config]
    returns, [db_path] is the [path] option of the [database] section, and
    the registry has an entry under [name] exactly when the configuration
    has a section [table:name] with a [query] option; the entry holds that
    query and the transform named by the [transform] option of the section,
    [all] when it has none. *)
Theorem parse_config_registry (cfg : Config.t) (name : str) :
  parse_config resolve cp = Ok cfg ->
  option_value cp (lit "database") (lit "path") = Some (Config.db_path cfg) /\
  (forall t, Config.tables cfg !! name = Some t -> entry_of resolve cp name t) /\
  (is_Some (Config.tables cfg !! name) <->
   lit "table:" ++ name ∈ sections cp /\
   is_Some (option_value cp (lit "table:" ++ name) (lit "query"))).
Proof.
  unfold parse_config. intros H.
  destruct (get cp (lit "database") (lit "path")) as [path|] eqn:Ep;
    cbn [bind] in H; [|discriminate].
  destruct (parse_sections resolve cp (sections cp) ∅) as [tbls|] eqn:Es;
    cbn [bind] in H; [|discriminate].
  inversion H; subst cfg. clear H. cbn [Config.db_path Config.tables].
  apply get_Ok in Ep as [_ Ep].
  assert (Hsound : forall t, tbls !! name = Some t -> entry_of resolve cp name t).
  { intros t Ht.
    destruct (parse_sections_sound (sections cp) ∅ tbls name t) as [He|He];
      auto.
    rewrite lookup_empty in He. discriminate. }
  split; [exact Ep|]. split; [exact Hsound|]. split.
  - intros [t Ht]. destruct (Hsound t Ht) as (Hin & Hq & _).
    split; [assumption|]. rewrite Hq. eauto.
  - intros [Hin Hq]. apply (parse_sections_complete _ _ _ _ Es Hin).
    now apply has_option_true.
Qed.

Lemma parse_sections_fails (section tn : str) (e0 : exn)
    (todo : list str) (tables : gmap str table) :
  section ∈ todo ->
  startswith (lit "table:") section = true ->
  has_option cp section (lit "query") = true ->
  option_value cp section (lit "transform") = Some tn ->
  transform_of resolve tn = Raise e0 ->
  exists e, parse_sections resolve cp todo tables = Raise e.
Proof.
  intros Hin Hst Hq Htr Hraise. revert tables.
  induction todo as [|s todo IH]; intros tables;
    [now apply elem_of_nil in Hin|].
  cbn [parse_sections].
  destruct (decide (s = section)) as [->|Hne].
  - rewrite Hst.
    destruct (unpack2 (split1 ":" section)) as [[? table_name]|e];
      cbn [bind]; [|eauto].
    rewrite Hq. cbn [negb].
    unfold transform_name_of, get.
    apply andb_prop in Hq as [Hsec _]. rewrite Hsec, Htr. cbn [bind].
    rewrite Hraise. cbn [bind]. eauto.
  - apply elem_of_cons in Hin as [Heq|Hin]; [congruence|].
    specialize (IH Hin).
    destruct (startswith (lit "table:") s); [|apply IH].
    destruct (unpack2 (split1 ":" s)) as [[? table_name]|e];
      cbn [bind]; [|eauto].
    destruct (negb (has_option cp s (lit "query"))); [apply IH|].
    destruct (transform_name_of cp s); cbn [bind]; [|eauto].
    destruct (transform_of resolve a); cbn [bind]; [|eauto].
    destruct (get cp s (lit "query")); cbn [bind]; [|eauto].
    apply IH.
Qed.

(** X17: a function reference that cannot be resolved fails the build.
    For a table section that has a query and whose transform is a
    well-formed reference [module:object], [resolve] is called with the two
    names, and when it raises, [parse_config] raises: no registry is built. *)
Theorem unresolved_transform_fails_build (section module object : str)
    (e0 : exn) :
  section ∈ sections cp ->
  startswith (lit "table:") section = true ->
  has_option cp section (lit "query") = true ->
  option_value cp section (lit "transform") = Some (module ++ ":"%char :: object) ->
  dotted module -> dotted object ->
  resolve module object = Raise e0 ->
  transform_of resolve (module ++ ":"%char :: object) = Raise e0 /\
  exists e, parse_config resolve cp = Raise e.
Proof.
  intros Hin Hst Hq Htr Hm Ho Hres.
  assert (Hraise : transform_of resolve (module ++ ":"%char :: object) = Raise e0).
  { unfold transform_of.
    assert (Hc : ":"%char ∈ module ++ ":"%char :: object)
      by (apply elem_of_app; right; apply elem_of_cons; now left).
    assert (Hnb : forall b : str, ":"%char ∉ b -> module ++ ":"%char :: object <> b)
      by (intros b Hb Heq; now rewrite Heq in Hc).
    rewrite !bool_decide_eq_false_2
      by (apply Hnb; apply (bool_decide_unpack _); vm_compute; exact I).
    rewrite match_accepts by assumption.
    cbn [bind]. assumption. }
  split; [assumption|]. unfold parse_config.
  destruct (get cp (lit "database") (lit "path")); cbn [bind]; [|eauto].
  destruct (parse_sections_fails section _ e0 (sections cp) ∅
              Hin Hst Hq Htr Hraise) as [e ->].
  cbn [bind]. eauto.
Qed.

(** X18: a configuration without the path of the database is refused
    before any table section is read: [parse_config] raises
    [NoSectionError] when there is no [database] section and
    [NoOptionError] when that section has no [path] option, whatever the
    table sections are. *)
Theorem missing_database_path_fails_build :
  (lit "database" ∉ sections cp ->
   parse_config resolve cp = Raise (NoSectionError (lit "database"))) /\
  (lit "database" ∈ sections cp ->
   option_value cp (lit "database") (lit "path") = None ->
   parse_config resolve cp
   = Raise (NoOptionError (lit "path") (lit "database"))).
Proof.
  unfold parse_config, get, has_section. split.
  - intros H. now rewrite bool_decide_eq_false_2.
  - intros H ->. now rewrite bool_decide_eq_true_2.
Qed.

End registry.

Lemma parse_config_registry_witness :
  option_value good_config (lit "database") (lit "path")
  = Some (Config.db_path good_registry) /\
  (forall t, Config.tables good_registry !! lit "domains" = Some t ->
             entry_of no_resolver good_config (lit "domains") t) /\
  (is_Some (Config.tables good_registry !! lit "domains") <->
   lit "table:" ++ lit "domains" ∈ sections good_config /\
   is_Some (option_value good_config (lit "table:" ++ lit "domains")
              (lit "query"))).
Proof.
  apply (parse_config_registry no_resolver good_config good_registry
           (lit "domains")).
  vm_compute. reflexivity.
Defined.

(** The table section without a query leaves no entry. *)
Example good_config_skipped :
  parse_config no_resolver good_config = Ok good_registry /\
  Config.tables good_registry !! lit "skipped" = None.
Proof. split; vm_compute; reflexivity. Qed.

Lemma dotted_mail_filters : dotted (lit "mail.filters") /\ dotted (lit "lower").
Proof.
  split.
  - exists (lit "mail"), [lit "filters"]. repeat split.
    + exists "m"%char, (lit "ail"). repeat split. repeat constructor.
    + repeat constructor.
      exists "f"%char, (lit "ilters"). repeat split. repeat constructor.
  - exists (lit "lower"), []. repeat split; [|constructor].
    exists "l"%char, (lit "ower"). repeat split. repeat constructor.
Qed.

Lemma unresolved_transform_fails_build_witness :
  transform_of no_resolver (lit "mail.filters" ++ ":"%char :: lit "lower")
  = Raise (CollaboratorError (lit "No module named mail.filters")) /\
  exists e, parse_config no_resolver reference_config = Raise e.
Proof.
  refine (unresolved_transform_fails_build no_resolver reference_config
            (lit "table:aliases") (lit "mail.filters") (lit "lower")
            (CollaboratorError (lit "No module named mail.filters"))
            _ _ _ _ (proj1 dotted_mail_filters) (proj2 dotted_mail_filters) _);
    try (vm_compute; reflexivity).
  apply (bool_decide_unpack _). vm_compute. exact I.
Defined.

Lemma missing_database_path_fails_build_witness :
  parse_config no_resolver no_database_config
  = Raise (NoSectionError (lit "database")).
Proof.
  apply (proj1 (missing_database_path_fails_build no_resolver no_database_config)).
  apply (bool_decide_unpack _). vm_compute. exact I.
Defined.

(** [int] as the reader uses it: underscores between digits and white
    space around the number are accepted, so such a prefix declares a
    length like any other. *)
Example int10_examples :
  int10 (lit "1_0") = Ok 10 /\
  int10 (lit " +12 ") = Ok 12 /\
  int10 ("160"%char :: lit "7" ++ ["133"%char]) = Ok 7 /\
  int10 (lit "-3") = Ok (-3) /\
  (exists msg, int10 (lit "1__0") = Raise (ValueError msg)) /\
  (exists msg, int10 (lit "_1") = Raise (ValueError msg)) /\
  (exists msg, int10 (lit "1_") = Raise (ValueError msg)) /\
  (exists msg, int10 (lit "+") = Raise (ValueError msg)) /\
  (exists msg, int10 (lit "1 2") = Raise (ValueError msg)) /\
  netstring_reader (lit "1_0:abcdefghij,") = Some ([lit "abcdefghij"], Returned).
Proof. repeat split; try eexists; vm_compute; reflexivity. Qed.

(** * Termination, and rows that are not text *)

(** X19: on every finite stream the generator yields finitely many
    payloads and then returns or raises, and [handle] ends, with what it has
    written: the fuel they are run with, one more than the length of the
    stream, is never used up. *)
Theorem reader_and_handler_terminate (self : server) (rfile : str) :
  (exists payloads e, netstring_reader rfile = Some (payloads, e)) /\
  (exists out e, Handler.handle self rfile = Some (out, e)).
Proof. split; [apply netstring_reader_total|apply handle_total]. Qed.

(** X20: a row whose first column is not a text ends the connection.  The
    response is concatenated in the [else] branch of the [try], so the
    [TypeError] of ['OK ' + result[0]] is not turned into a [PERM] response:
    it leaves the loop body, and nothing is written for the request. *)
Theorem non_text_column_escapes (self : server) (wfile table_name arg : str)
    (table : table) (param type_name : str) (columns : list column) :
  " "%char ∉ table_name ->
  tables self !! table_name = Some table ->
  transform table arg = Ok param ->
  db_conn self (query table) param = Ok (Some (NonText type_name :: columns)) ->
  Handler.handle_request self wfile (table_name ++ " "%char :: arg)
  = Raise (TypeError (lit "cannot concatenate 'str' and '" ++ type_name
                        ++ lit "' objects")) /\
  forall rfile,
    Z.of_nat (length (table_name ++ " "%char :: arg)) < 10 ^ 11 ->
    Handler.handle self
      (Handler.netstring (table_name ++ " "%char :: arg) ++ rfile)
    = Some ([], Raised (TypeError (lit "cannot concatenate 'str' and '"
                                     ++ type_name ++ lit "' objects"))).
Proof.
  intros Hsp Htab Htr Hdb.
  assert (Hreq : forall w,
    Handler.handle_request self w (table_name ++ " "%char :: arg)
    = Raise (TypeError (lit "cannot concatenate 'str' and '" ++ type_name
                          ++ lit "' objects"))).
  { intros w.
    unfold Handler.handle_request, Handler.run_query, Handler._query_db.
    rewrite split_request by assumption. cbn [bind].
    rewrite Htab, Htr. cbn [bind]. now rewrite Hdb. }
  split; [apply Hreq|].
  intros rfile Hlen. rewrite handle_step, next_frame_netstring by assumption.
  now rewrite Hreq.
Qed.

Lemma non_text_column_escapes_witness :
  Handler.handle_request quota_server [] (lit "quota" ++ " "%char :: lit "bob@example.com")
  = Raise (TypeError (lit "cannot concatenate 'str' and '" ++ lit "int"
                        ++ lit "' objects")) /\
  forall rfile,
    Z.of_nat (length (lit "quota" ++ " "%char :: lit "bob@example.com")) < 10 ^ 11 ->
    Handler.handle quota_server
      (Handler.netstring (lit "quota" ++ " "%char :: lit "bob@example.com") ++ rfile)
    = Some ([], Raised (TypeError (lit "cannot concatenate 'str' and '"
                                     ++ lit "int" ++ lit "' objects"))).
Proof.
  refine (non_text_column_escapes quota_server [] (lit "quota")
            (lit "bob@example.com") _ (lit "bob") (lit "int") [] _ _ _ _);
    try (vm_compute; reflexivity).
  apply (bool_decide_unpack _). vm_compute. exact I.
Defined.
